(** * CrisGo: the incident-aware route-cost model and route selector

    A shallow embedding of the geometric utilities ([src/lib/gps-utils.ts])
    and of the routing service (imported by the pages as [@/lib/routing]),
    with the properties of the cost model, of the incident check and of
    the provider fallback.

    Numbers.  The TypeScript code computes on IEEE doubles; here a [number]
    is a real of the Standard Library, and [Math.sin], [Math.cos],
    [Math.sqrt] and [Math.PI] are the real functions and constant.  The one
    non-finite value the cost model builds itself, the [Infinity] that
    starts a running minimum, is a constructor of [xnumber].  Coordinates
    are taken to be valid, so that no [NaN] arises.  The weights of the
    penalty zones are also computed on doubles, in [Double], to check that
    rounding does not move them.

    Effects.  The calls to [console.log] are left out.  The two routing
    providers are reached through a [Network] that answers each request
    and keeps the list of the requests sent. *)

From Stdlib Require Import Reals Lra.
From Stdlib Require Floats.PrimFloat Ascii.
From stdpp Require Import gmap strings list.

Open Scope R_scope.
Set Warnings "-clear-no-such-hyp,-inexact-float".

(** A running minimum starts at [Infinity]; every other number of the
    service is finite. *)
Inductive xnumber : Type :=
  | Infinity
  | Finite (x : R).

Coercion Finite : R >-> xnumber.

#[global] Instance Rle_decision (x y : R) : Decision (x <= y) := Rle_dec x y.

(** The comparison [a <= b] of JavaScript. *)
Definition xleb (a b : xnumber) : bool :=
  match a, b with
  | _, Infinity => true
  | Infinity, Finite _ => false
  | Finite x, Finite y => bool_decide (x <= y)
  end.

#[global] Instance Rlt_decision (x y : R) : Decision (x < y) := Rlt_dec x y.

(** The comparison [a < b] of JavaScript. *)
Definition xltb (a b : xnumber) : bool :=
  match a, b with
  | Infinity, _ => false
  | Finite _, Infinity => true
  | Finite x, Finite y => bool_decide (x < y)
  end.

(** The integer part of a number, towards zero. *)
Definition truncate (x : R) : Z :=
  if Rle_dec 0 x then Int_part x else (- Int_part (- x))%Z.

(** The remainder [n % d] of JavaScript: it has the sign of [n]. *)
Definition rem (n d : R) : R := n - d * IZR (truncate (n / d)).

(** What a call gives back: a value, or the [TypeError] that reading a
    property of [undefined] throws. *)
Inductive Outcome (A : Type) : Type :=
  | Return (a : A)
  | TypeError.

Arguments Return {A} a.
Arguments TypeError {A}.

#[global] Instance Outcome_ret : MRet Outcome := fun A a => Return a.


#[global] Instance Rgt_decision (x y : R) : Decision (x > y) := Rgt_dec x y.

(** The bitwise operators of JavaScript: they work on 32-bit integers in
    two's complement, and a shift uses the low five bits of its count. *)
Module Int32.

Definition wrap (z : Z) : Z := ((z + 2 ^ 31) mod 2 ^ 32 - 2 ^ 31)%Z.

(** [x << s] *)
Definition shl (x s : Z) : Z := wrap (Z.shiftl (wrap x) (Z.land s 31)).

(** [x >> s] *)
Definition sar (x s : Z) : Z := Z.shiftr (wrap x) (Z.land s 31).

(** [x | y], [x & y], [~x] *)
Definition or (x y : Z) : Z := Z.lor (wrap x) (wrap y).
Definition and (x y : Z) : Z := Z.land (wrap x) (wrap y).
Definition not (x : Z) : Z := Z.lnot (wrap x).

End Int32.

(** ** JavaScript's [Math] on reals *)

Module Math.

(** [Math.round(x)]: the nearest integer, a tie going up. *)
Definition round (x : R) : Z := Int_part (x + 0.5).

(** [Math.min(a, b)] *)
Definition min (a b : xnumber) : xnumber :=
  match a, b with
  | Infinity, _ => b
  | _, Infinity => a
  | Finite x, Finite y => Finite (Rmin x y)
  end.

(** [Math.atan2(y, x)]: the angle of the point (x, y), in (-PI, PI]. *)
Definition atan2 (y x : R) : R :=
  if Rlt_dec 0 x then atan (y / x)
  else if Rlt_dec x 0 then
    (if Rle_dec 0 y then atan (y / x) + PI else atan (y / x) - PI)
  else if Rlt_dec 0 y then PI / 2
  else if Rlt_dec y 0 then - (PI / 2)
  else 0.

End Math.

(** ** GPS utilities ([gps-utils.ts]) *)

Module GpsUtils.

(** Distance between two points in meters, by the haversine formula. *)
Definition calculateDistance (lat1 lng1 lat2 lng2 : R) : R :=
  let R := 6371000 in
  let phi1 := (lat1 * PI) / 180 in
  let phi2 := (lat2 * PI) / 180 in
  let dphi := ((lat2 - lat1) * PI) / 180 in
  let dlambda := ((lng2 - lng1) * PI) / 180 in
  let a :=
    sin (dphi / 2) * sin (dphi / 2) +
    cos phi1 * cos phi2 * sin (dlambda / 2) * sin (dlambda / 2) in
  let c := 2 * Math.atan2 (sqrt a) (sqrt (1 - a)) in
  R * c.

(** Bearing from point A to point B in degrees: 0 is north, 90 east,
    180 south, 270 west. *)
Definition calculateBearing (lat1 lng1 lat2 lng2 : R) : R :=
  let phi1 := (lat1 * PI) / 180 in
  let phi2 := (lat2 * PI) / 180 in
  let dlambda := ((lng2 - lng1) * PI) / 180 in
  let y := sin dlambda * cos phi2 in
  let x := cos phi1 * sin phi2 - sin phi1 * cos phi2 * cos dlambda in
  let theta := Math.atan2 y x in
  let bearing := rem ((theta * 180) / PI + 360) 360 in
  bearing.

Module Coordinate.
Record t : Type := mk { lat : R; lng : R }.
End Coordinate.

Module NextWaypoint.
Record t : Type := mk { waypoint : R * R; index : nat; distance : R }.
End NextWaypoint.

(** The loop that [findNextWaypoint] and [calculateRemainingDistance]
    both start with: the index of the point of the route closest to the
    current location, and its distance. *)
Definition closestPoint (currentLocation : Coordinate.t)
    (routeCoordinates : list (R * R)) : nat * xnumber :=
  foldl
    (fun '(closestIndex, minDistance) '(i, (lat, lng)) =>
       let distance :=
         calculateDistance (Coordinate.lat currentLocation)
           (Coordinate.lng currentLocation) lat lng in
       if xltb distance minDistance then (i, Finite distance)
       else (closestIndex, minDistance))
    (0%nat, Infinity) (imap pair routeCoordinates).

(** The waypoint to head towards: five points after the closest one, or
    the last point of the route.  [lookAheadMeters], 100 when left out,
    is not read. *)
Definition findNextWaypoint (currentLocation : Coordinate.t)
    (routeCoordinates : list (R * R)) (lookAheadMeters : option R)
    : Outcome (option NextWaypoint.t) :=
  let lookAheadMeters := default 100 lookAheadMeters in
  if bool_decide (length routeCoordinates = 0%nat) then Return None
  else
    let '(closestIndex, minDistance) := closestPoint currentLocation routeCoordinates in
    let lookAheadIndex := Nat.min (closestIndex + 5) (length routeCoordinates - 1) in
    match routeCoordinates !! lookAheadIndex with
    | None => TypeError
    | Some nextWaypoint =>
        let distanceToNext :=
          calculateDistance (Coordinate.lat currentLocation)
            (Coordinate.lng currentLocation) nextWaypoint.1 nextWaypoint.2 in
        Return (Some {| NextWaypoint.waypoint := nextWaypoint;
                        NextWaypoint.index := lookAheadIndex;
                        NextWaypoint.distance := distanceToNext |})
    end.

(** The cardinal direction of a bearing; [undefined] when the index
    computed is not one of the array. *)
Definition getCardinalDirection (bearing : R) : option string :=
  let directions := ["N"; "NE"; "E"; "SE"; "S"; "SW"; "W"; "NW"] in
  let index := Z.rem (Math.round (bearing / 45)) 8 in
  if (0 <=? index)%Z then directions !! Z.to_nat index else None.

(** An incident as [checkProximityToIncidents] reads it: it is typed
    [any], and its credibility is compared with strings. *)
Module AnyIncident.
Record t : Type := mk { lat : R; lng : R; credibility : string }.
End AnyIncident.

Module Severity.
Inductive t : Set := safe | low | medium | high.
End Severity.

Module ProximityResult.
Record t : Type := mk {
  severity : Severity.t;
  nearestIncident : option AnyIncident.t;
  distance : xnumber;
  incidentsInRange : list (AnyIncident.t * R)
}.
End ProximityResult.

#[global] Instance Severity_eq_dec : EqDecision Severity.t.
Proof. solve_decision. Defined.

(** One turn of the loop of [checkProximityToIncidents] on its four
    mutable locals. *)
Definition proximityLoop (currentLocation : Coordinate.t)
    (highRadius mediumRadius lowRadius : R)
    (locals : ProximityResult.t) (incident : AnyIncident.t) : ProximityResult.t :=
  let nearestIncident := ProximityResult.nearestIncident locals in
  let minDistance := ProximityResult.distance locals in
  let highestSeverity := ProximityResult.severity locals in
  let incidentsInRange := ProximityResult.incidentsInRange locals in
  let distance :=
    calculateDistance (Coordinate.lat currentLocation) (Coordinate.lng currentLocation)
      (AnyIncident.lat incident) (AnyIncident.lng incident) in
  let incidentsInRange :=
    if bool_decide (distance < lowRadius) then incidentsInRange ++ [(incident, distance)]
    else incidentsInRange in
  let '(minDistance, nearestIncident) :=
    if xltb distance minDistance then (Finite distance, Some incident)
    else (minDistance, nearestIncident) in
  let highestSeverity :=
    if bool_decide (distance < highRadius)
       && bool_decide (AnyIncident.credibility incident = "high")
    then Severity.high
    else if bool_decide (distance < mediumRadius)
            && negb (bool_decide (highestSeverity = Severity.high))
    then
      if bool_decide (AnyIncident.credibility incident = "high")
         || bool_decide (AnyIncident.credibility incident = "medium")
      then Severity.medium
      else highestSeverity
    else if bool_decide (distance < lowRadius)
            && bool_decide (highestSeverity = Severity.safe)
    then Severity.low
    else highestSeverity in
  {| ProximityResult.severity := highestSeverity;
     ProximityResult.nearestIncident := nearestIncident;
     ProximityResult.distance := minDistance;
     ProximityResult.incidentsInRange := incidentsInRange |}.

(** The incidents around the current location and the highest severity
    among them; the radii are 100, 300 and 500 m when left out. *)
Definition checkProximityToIncidents (currentLocation : Coordinate.t)
    (incidents : list AnyIncident.t) (highRadius mediumRadius lowRadius : option R)
    : ProximityResult.t :=
  let highRadius := default 100 highRadius in
  let mediumRadius := default 300 mediumRadius in
  let lowRadius := default 500 lowRadius in
  foldl (proximityLoop currentLocation highRadius mediumRadius lowRadius)
    {| ProximityResult.severity := Severity.safe;
       ProximityResult.nearestIncident := None;
       ProximityResult.distance := Infinity;
       ProximityResult.incidentsInRange := [] |}
    incidents.


End GpsUtils.

(** ** Routing service ([routing.ts]) *)

Inductive TransportMode : Set := driving | walking | cycling | transit.

Inductive Credibility : Set := high | medium | low.

#[global] Instance Credibility_eq_dec : EqDecision Credibility.
Proof. solve_decision. Defined.

Module RoutePoint.
Record t : Type := mk { lat : R; lng : R }.
End RoutePoint.

Module Step.
Record t : Type := mk { instruction : string; distance : R; duration : R }.
End Step.

Module RouteResult.
Record t : Type := mk {
  coordinates : list (R * R);
  distance : R;
  duration : R;
  steps : list Step.t
}.
End RouteResult.

Module Incident.
Record t : Type := mk {
  id : string;
  lat : R;
  lng : R;
  credibility : Credibility;
  title : string
}.
End Incident.

Module Routing.

(** Incident cost weights, keyed by credibility. *)
Definition INCIDENT_WEIGHTS (key : Credibility) : R :=
  match key with
  | high => 500000
  | medium => 7000
  | low => 3000
  end.

Record PenaltyZones : Type :=
  { innerZone : R; middleZone : R; outerZone : R }.

(** Distance-based penalty zones for high-credibility incidents. *)
Definition HIGH_CRED_PENALTY_ZONES : PenaltyZones :=
  {| innerZone := 200; middleZone := 400; outerZone := 600 |}.

Definition INCIDENT_DETECTION_RADIUS : R := 600.

(** The service's own, private copy of the haversine distance. *)
Definition calculateDistance (lat1 lng1 lat2 lng2 : R) : R :=
  let R := 6371000 in
  let phi1 := (lat1 * PI) / 180 in
  let phi2 := (lat2 * PI) / 180 in
  let dphi := ((lat2 - lat1) * PI) / 180 in
  let dlambda := ((lng2 - lng1) * PI) / 180 in
  let a :=
    sin (dphi / 2) * sin (dphi / 2) +
    cos phi1 * cos phi2 * sin (dlambda / 2) * sin (dlambda / 2) in
  let c := 2 * Math.atan2 (sqrt a) (sqrt (1 - a)) in
  R * c.

(** The inner loop of [calculateRouteCost]: the least distance from a
    point of the route to the incident, [Infinity] on an empty route. *)
Definition minDistanceToIncident
    (routeCoordinates : list (R * R)) (incident : Incident.t) : xnumber :=
  foldl
    (fun minDistanceToIncident '(lat, lng) =>
       let distanceToIncident :=
         calculateDistance lat lng (Incident.lat incident) (Incident.lng incident) in
       Math.min minDistanceToIncident distanceToIncident)
    Infinity routeCoordinates.

(** The value of the local [weight] once the credibility branch has run. *)
Definition weight (minDistanceToIncident : xnumber) (incident : Incident.t) : R :=
  if decide (Incident.credibility incident = high) then
    if xleb minDistanceToIncident (innerZone HIGH_CRED_PENALTY_ZONES) then
      INCIDENT_WEIGHTS high
    else if xleb minDistanceToIncident (middleZone HIGH_CRED_PENALTY_ZONES) then
      INCIDENT_WEIGHTS high * 0.5
    else if xleb minDistanceToIncident (outerZone HIGH_CRED_PENALTY_ZONES) then
      INCIDENT_WEIGHTS high * 0.2
    else 0
  else INCIDENT_WEIGHTS (Incident.credibility incident).

(** One turn of the loop over the incidents, on the pair of the mutable
    locals [cost] and [incidentsNearRoute]. *)
Definition costLoop (routeCoordinates : list (R * R))
    (locals : R * gset string) (incident : Incident.t) : R * gset string :=
  let '(cost, incidentsNearRoute) := locals in
  let minDistanceToIncident := minDistanceToIncident routeCoordinates incident in
  if xleb minDistanceToIncident INCIDENT_DETECTION_RADIUS then
    if negb (bool_decide (Incident.id incident ∈ incidentsNearRoute)) then
      (cost + weight minDistanceToIncident incident,
       {[Incident.id incident]} ∪ incidentsNearRoute)
    else locals
  else locals.

(** Weighted cost of a route: distance + duration + incident penalties. *)
Definition calculateRouteCost (routeCoordinates : list (R * R))
    (distance duration : R) (incidents : list Incident.t) : R :=
  let cost := distance + duration in
  let incidentsNearRoute : gset string := ∅ in
  fst (foldl (costLoop routeCoordinates) (cost, incidentsNearRoute) incidents).

(** The inner loop of [checkRouteForIncidents]: it stops, with [true], at
    the first point of the route within the threshold. *)
Fixpoint nearRoute (routeCoordinates : list (R * R)) (incident : Incident.t)
    (thresholdMeters : R) : bool :=
  match routeCoordinates with
  | [] => false
  | (lat, lng) :: rest =>
      let distance :=
        calculateDistance lat lng (Incident.lat incident) (Incident.lng incident) in
      if bool_decide (distance <= thresholdMeters) then true
      else nearRoute rest incident thresholdMeters
  end.

(** The incidents within the threshold distance of the route; the
    threshold is 400 m when the caller passes none. *)
Definition checkRouteForIncidents (routeCoordinates : list (R * R))
    (incidents : list Incident.t) (thresholdMeters : option R) : list Incident.t :=
  let thresholdMeters := default 400 thresholdMeters in
  foldl
    (fun nearbyIncidents incident =>
       if nearRoute routeCoordinates incident thresholdMeters
       then nearbyIncidents ++ [incident]
       else nearbyIncidents)
    [] incidents.

(** *** The routing providers

    [getValhallaRoute] and [getOSRMRoute] each send one HTTP request, wait
    for it, and give back the parsed route, or [null] on any failure (a
    status that is not ok, a body without a route, an exception).  A
    [Promise] runs against the [Network] that answers and records, in
    order, the requests sent. *)

Inductive Request : Type :=
  | ValhallaRequest (start end_ : RoutePoint.t) (mode : TransportMode)
  | OSRMRequest (start end_ : RoutePoint.t) (mode : TransportMode).

Record Network : Type := {
  valhalla : RoutePoint.t -> RoutePoint.t -> TransportMode -> option RouteResult.t;
  osrm : RoutePoint.t -> RoutePoint.t -> TransportMode -> option RouteResult.t
}.

Definition Promise (A : Type) : Type :=
  Network -> list Request -> A * list Request.

#[global] Instance Promise_ret : MRet Promise :=
  fun A a _ sent => (a, sent).

#[global] Instance Promise_bind : MBind Promise :=
  fun A B k m net sent => let '(a, sent') := m net sent in k a net sent'.

Definition getValhallaRoute (start end_ : RoutePoint.t) (mode : TransportMode)
    : Promise (option RouteResult.t) :=
  fun net sent => (valhalla net start end_ mode, sent ++ [ValhallaRequest start end_ mode]).

Definition getOSRMRoute (start end_ : RoutePoint.t) (mode : TransportMode)
    : Promise (option RouteResult.t) :=
  fun net sent => (osrm net start end_ mode, sent ++ [OSRMRequest start end_ mode]).

(** Route between two points.  The [incidents] argument, [[]] when the
    caller leaves it out, is not read: the body is the fast mode. *)
Definition getRoute (start end_ : RoutePoint.t) (mode : TransportMode)
    (incidents : option (list Incident.t)) : Promise (option RouteResult.t) :=
  let incidents := default [] incidents in
  directRoute ← getValhallaRoute start end_ mode;
  match directRoute with
  | None => getOSRMRoute start end_ mode
  | Some directRoute => mret (Some directRoute)
  end.

(** [run p net] is the value of the promise and the requests it sent. *)
Definition run {A : Type} (p : Promise A) (net : Network) : A * list Request :=
  p net [].

(** *** Avoidance waypoints *)

(** The four strategies pushed for one incident and one avoidance
    distance: one waypoint to the left, one to the right, two on the
    left, two on the right. *)
Definition avoidanceStrategies (start end_ : RoutePoint.t) (incident : Incident.t)
    (allWaypoints : list (list RoutePoint.t)) (avoidDistance : R)
    : list (list RoutePoint.t) :=
  let startToEndLat := RoutePoint.lat end_ - RoutePoint.lat start in
  let startToEndLng := RoutePoint.lng end_ - RoutePoint.lng start in
  let startToIncidentLat := Incident.lat incident - RoutePoint.lat start in
  let startToIncidentLng := Incident.lng incident - RoutePoint.lng start in
  let perpLat1 := - startToEndLng in
  let perpLng1 := startToEndLat in
  let perpLat2 := startToEndLng in
  let perpLng2 := - startToEndLat in
  let length := sqrt (startToEndLat * startToEndLat + startToEndLng * startToEndLng) in
  let normPerpLat1 := (perpLat1 / length) * avoidDistance in
  let normPerpLng1 := (perpLng1 / length) * avoidDistance in
  let normPerpLat2 := (perpLat2 / length) * avoidDistance in
  let normPerpLng2 := (perpLng2 / length) * avoidDistance in
  let allWaypoints :=
    allWaypoints ++
    [[ {| RoutePoint.lat := Incident.lat incident + normPerpLat1;
          RoutePoint.lng := Incident.lng incident + normPerpLng1 |} ]] in
  let allWaypoints :=
    allWaypoints ++
    [[ {| RoutePoint.lat := Incident.lat incident + normPerpLat2;
          RoutePoint.lng := Incident.lng incident + normPerpLng2 |} ]] in
  let allWaypoints :=
    allWaypoints ++
    [[ {| RoutePoint.lat := RoutePoint.lat start + startToIncidentLat * 0.5 + normPerpLat1;
          RoutePoint.lng := RoutePoint.lng start + startToIncidentLng * 0.5 + normPerpLng1 |};
       {| RoutePoint.lat := Incident.lat incident + normPerpLat1;
          RoutePoint.lng := Incident.lng incident + normPerpLng1 |} ]] in
  let allWaypoints :=
    allWaypoints ++
    [[ {| RoutePoint.lat := RoutePoint.lat start + startToIncidentLat * 0.5 + normPerpLat2;
          RoutePoint.lng := RoutePoint.lng start + startToIncidentLng * 0.5 + normPerpLng2 |};
       {| RoutePoint.lat := Incident.lat incident + normPerpLat2;
          RoutePoint.lng := Incident.lng incident + normPerpLng2 |} ]] in
  allWaypoints.

(** Waypoint lists that lead a route around the incidents. *)
Definition generateAvoidanceWaypoints (start end_ : RoutePoint.t)
    (incidentsToAvoid : list Incident.t) : list (list RoutePoint.t) :=
  if bool_decide (length incidentsToAvoid = 0%nat) then []
  else
    let distances := [0.005; 0.010; 0.015] in
    foldl
      (fun allWaypoints incident =>
         let startToEndLat := RoutePoint.lat end_ - RoutePoint.lat start in
         let startToEndLng := RoutePoint.lng end_ - RoutePoint.lng start in
         let length :=
           sqrt (startToEndLat * startToEndLat + startToEndLng * startToEndLng) in
         if bool_decide (length > 0) then
           foldl (avoidanceStrategies start end_ incident) allWaypoints distances
         else allWaypoints)
      [] incidentsToAvoid.

(** *** Valhalla's polyline *)

(** [encoded.charCodeAt(i)] for a character of the string. *)
Definition charCode (c : Ascii.ascii) : Z := Z.of_N (Ascii.N_of_ascii c).

(** One run of the [do ... while (byte >= 0x20)] loop, on the part of
    [encoded] from [index] on: the value read and what is left of the
    string.  Past the end [charCodeAt] gives [NaN], which the bitwise
    operators read as 0 and which is not [>= 0x20]. *)
Fixpoint readChunks (encoded : string) (shift result : Z) : Z * string :=
  match encoded with
  | EmptyString => (Int32.or result (Int32.shl (Int32.and 0 31) shift), EmptyString)
  | String c rest =>
      let byte := (charCode c - 63)%Z in
      let result := Int32.or result (Int32.shl (Int32.and byte 31) shift) in
      let shift := (shift + 5)%Z in
      if (32 <=? byte)%Z then readChunks rest shift result else (result, rest)
  end.

(** [result & 1 ? ~(result >> 1) : result >> 1] *)
Definition signedDelta (result : Z) : Z :=
  if bool_decide (Int32.and result 1 = 0%Z) then Int32.sar result 1
  else Int32.not (Int32.sar result 1).

(** The [while (index < encoded.length)] loop, run at most [fuel] times. *)
Fixpoint decodeLoop (fuel : nat) (encoded : string) (lat lng : Z) : list (R * R) :=
  match fuel with
  | O => []
  | S fuel =>
      match encoded with
      | EmptyString => []
      | _ =>
          let '(result, encoded) := readChunks encoded 0 0 in
          let deltaLat := signedDelta result in
          let lat := (lat + deltaLat)%Z in
          let '(result, encoded) := readChunks encoded 0 0 in
          let deltaLng := signedDelta result in
          let lng := (lng + deltaLng)%Z in
          (IZR lat / 1000000, IZR lng / 1000000) :: decodeLoop fuel encoded lat lng
      end
  end.

(** Decode Valhalla's polyline6 format.  Every turn of the outer loop
    reads at least one character, so as many turns as the string has
    characters are enough. *)
Definition decodePolyline6 (encoded : string) : list (R * R) :=
  decodeLoop (String.length encoded) encoded 0 0.

End Routing.

(** ** The zone weights on doubles *)

Module Double.

Import PrimFloat.

Definition INCIDENT_WEIGHTS_high : float := 500000%float.

(** [INCIDENT_WEIGHTS.high * 0.5] and [INCIDENT_WEIGHTS.high * 0.2] *)
Definition middleZoneWeight : float := PrimFloat.mul INCIDENT_WEIGHTS_high 0.5%float.
Definition outerZoneWeight : float := PrimFloat.mul INCIDENT_WEIGHTS_high 0.2%float.

End Double.

(** ** Notions of the specification *)

Module Spec.

(** [d] is the minimum distance from the incident to the points of the
    route: it is attained at a point and is a lower bound at every point. *)
Definition minimumDistance (routeCoordinates : list (R * R))
    (incident : Incident.t) (d : R) : Prop :=
  (exists p, p ∈ routeCoordinates /\
     Routing.calculateDistance p.1 p.2 (Incident.lat incident) (Incident.lng incident) = d) /\
  (forall p, p ∈ routeCoordinates ->
     d <= Routing.calculateDistance p.1 p.2 (Incident.lat incident) (Incident.lng incident)).

(** Some point of the route is within [radius] of the incident. *)
Definition withinRadius (routeCoordinates : list (R * R))
    (incident : Incident.t) (radius : R) : Prop :=
  exists p, p ∈ routeCoordinates /\
    Routing.calculateDistance p.1 p.2 (Incident.lat incident) (Incident.lng incident) <= radius.

#[global] Instance withinRadius_dec routeCoordinates incident radius :
  Decision (withinRadius routeCoordinates incident radius).
Proof.
  refine (cast_if (decide (Exists (fun p : R * R =>
    Routing.calculateDistance p.1 p.2 (Incident.lat incident) (Incident.lng incident)
      <= radius) routeCoordinates)));
  unfold withinRadius; rewrite Exists_exists in *; naive_solver.
Defined.

(** Step 1 of the full weighted selection, in the words of the
    specification: the incidents within the detection radius (600 m) of
    the direct route and of high credibility. *)
Definition avoidanceTriggers (routeCoordinates : list (R * R))
    (incidents : list Incident.t) : list Incident.t :=
  filter (fun incident =>
            withinRadius routeCoordinates incident 600 /\
            Incident.credibility incident = high)
         incidents.

(** The incidents at which one evaluation of [calculateRouteCost] adds a
    penalty, in the order of the evaluation: those within the detection
    radius whose id the evaluation has not met before. *)
Fixpoint penalized (routeCoordinates : list (R * R)) (met : gset string)
    (incidents : list Incident.t) : list Incident.t :=
  match incidents with
  | [] => []
  | incident :: rest =>
      if decide (withinRadius routeCoordinates incident 600 /\ Incident.id incident ∉ met)
      then incident :: penalized routeCoordinates ({[Incident.id incident]} ∪ met) rest
      else penalized routeCoordinates met rest
  end.

(** The penalty of one incident: the gradient for high credibility, the
    flat weight otherwise. *)
Definition penalty (routeCoordinates : list (R * R)) (incident : Incident.t) : R :=
  Routing.weight (Routing.minDistanceToIncident routeCoordinates incident) incident.

Definition total (penalties : list R) : R := foldr Rplus 0 penalties.

(** The distance from a location to a point [(lat, lng)] of a route. *)
Definition distanceTo (location : GpsUtils.Coordinate.t) (p : R * R) : R :=
  GpsUtils.calculateDistance (GpsUtils.Coordinate.lat location)
    (GpsUtils.Coordinate.lng location) p.1 p.2.

(** [c] is the first index of the route at which the distance to the
    location is least. *)
Definition closestAt (location : GpsUtils.Coordinate.t)
    (routeCoordinates : list (R * R)) (c : nat) : Prop :=
  exists p, routeCoordinates !! c = Some p
    /\ (forall j q, routeCoordinates !! j = Some q ->
          distanceTo location p <= distanceTo location q)
    /\ (forall j q, (j < c)%nat -> routeCoordinates !! j = Some q ->
          distanceTo location p < distanceTo location q).


(** The distance from a location to an incident of the proximity check. *)
Definition distanceToIncident (location : GpsUtils.Coordinate.t)
    (incident : GpsUtils.AnyIncident.t) : R :=
  GpsUtils.calculateDistance (GpsUtils.Coordinate.lat location)
    (GpsUtils.Coordinate.lng location)
    (GpsUtils.AnyIncident.lat incident) (GpsUtils.AnyIncident.lng incident).

(** The polyline encoding that [decodePolyline6] reads.  The encoder is
    the routing engine's, not the repository's: a signed value is folded
    onto the naturals (twice the value, complemented when negative), cut
    into chunks of five bits from the low end, every chunk but the last
    flagged with [0x20], and each chunk written as the character of code
    chunk + 63.  Six chunks hold every folded value below [2 ^ 30]. *)
Definition chunkChar (chunk : Z) : Ascii.ascii :=
  Ascii.ascii_of_N (Z.to_N (chunk + 63)).

Fixpoint encodeUnsigned (chunks : nat) (u : Z) : string :=
  match chunks with
  | O => EmptyString
  | S chunks =>
      if (u <? 32)%Z then String (chunkChar u) EmptyString
      else String (chunkChar (Z.lor 32 (Z.land u 31)))
                  (encodeUnsigned chunks (Z.shiftr u 5))
  end.

Definition zigzag (v : Z) : Z :=
  if (v <? 0)%Z then Z.lnot (Z.shiftl v 1) else Z.shiftl v 1.

Definition encodeValue (v : Z) : string := encodeUnsigned 6 (zigzag v).

(** The points are given in millionths of a degree; each is written as
    its difference from the point before, the first from (0, 0). *)
Fixpoint encodePoints (lat lng : Z) (points : list (Z * Z)) : string :=
  match points with
  | [] => EmptyString
  | (lat', lng') :: rest =>
      String.append (encodeValue (lat' - lat))
        (String.append (encodeValue (lng' - lng)) (encodePoints lat' lng' rest))
  end.

Definition encodePolyline6 (points : list (Z * Z)) : string := encodePoints 0 0 points.

(** A point in millionths of a degree, in degrees. *)
Definition degrees (point : Z * Z) : R * R :=
  (IZR point.1 / 1000000, IZR point.2 / 1000000).

(** A point within the range of latitudes and longitudes. *)
Definition onEarth (point : Z * Z) : Prop :=
  (- 90000000 <= point.1 <= 90000000)%Z /\ (- 180000000 <= point.2 <= 180000000)%Z.

(** The severities in their order: safe, low, medium, high. *)
Definition severityRank (severity : GpsUtils.Severity.t) : nat :=
  match severity with
  | GpsUtils.Severity.safe => 0
  | GpsUtils.Severity.low => 1
  | GpsUtils.Severity.medium => 2
  | GpsUtils.Severity.high => 3
  end.

End Spec.

Import Routing Spec.

(** ** Sample data

    Routes and incidents on the equator, placed by their distance in meters
    east of the point (0, 0), and networks in which a provider is down. *)

Module Example.

(** The longitude, in degrees, of the point of the equator [meters] east
    of longitude 0. *)
Definition metersEast (meters : R) : R := meters * 180 / (6371000 * PI).

Definition route : list (R * R) := [(0, 0)].

Definition incidentAt (id : string) (meters : R) (credibility : Credibility) : Incident.t :=
  {| Incident.id := id; Incident.lat := 0; Incident.lng := metersEast meters;
     Incident.credibility := credibility; Incident.title := "report" |}.

Definition fire : Incident.t := incidentAt "fire" 150 high.
Definition protest : Incident.t := incidentAt "protest" 5000 medium.
Definition pothole : Incident.t := incidentAt "pothole" 0 low.
Definition puddle : Incident.t := incidentAt "puddle" 100 low.

(** A high-credibility incident at a chosen distance. *)
Definition hazard (meters : R) : Incident.t := incidentAt "hazard" meters high.

(** Two more reports filed under the id of [fire]. *)
Definition fireAgain : Incident.t := incidentAt "fire" 300 high.
Definition rumour : Incident.t := incidentAt "fire" 0 low.

(** A route of two points 100 m apart, and an incident 120 m from the
    first and 20 m from the second. *)
Definition route2 : list (R * R) := [(0, 0); (0, metersEast 100)].
Definition ember : Incident.t := incidentAt "ember" 120 high.

Definition here : RoutePoint.t := {| RoutePoint.lat := 0; RoutePoint.lng := 0 |}.
Definition there : RoutePoint.t :=
  {| RoutePoint.lat := 0; RoutePoint.lng := metersEast 1000 |}.

Definition answer : RouteResult.t :=
  {| RouteResult.coordinates := [(0, 0); (0, metersEast 1000)];
     RouteResult.distance := 1000;
     RouteResult.duration := 120;
     RouteResult.steps :=
       [ {| Step.instruction := "Continue"; Step.distance := 1000; Step.duration := 120 |} ] |}.

Definition valhallaDown : Network :=
  {| valhalla := fun _ _ _ => None; osrm := fun _ _ _ => Some answer |}.

Definition allDown : Network :=
  {| valhalla := fun _ _ _ => None; osrm := fun _ _ _ => None |}.

Definition allUp : Network :=
  {| valhalla := fun _ _ _ => Some answer; osrm := fun _ _ _ => None |}.

(** A location at the origin and a track of eight points, 100 m apart,
    going east from it. *)
Definition position : GpsUtils.Coordinate.t :=
  {| GpsUtils.Coordinate.lat := 0; GpsUtils.Coordinate.lng := 0 |}.

Definition track : list (R * R) :=
  [(0, metersEast 0); (0, metersEast 100); (0, metersEast 200); (0, metersEast 300);
   (0, metersEast 400); (0, metersEast 500); (0, metersEast 600); (0, metersEast 700)].

(** The three points of the example in the documentation of the polyline
    format, and their encoding. *)
Definition shape : list (Z * Z) :=
  [(3850000, -12020000); (4070000, -12095000); (4325200, -12645300)]%Z.

Definition shapeEncoded : string := "_p~iF~ps|U_ulLnnqC_mqNvxq`@".

(** Incidents for the proximity check, east of the origin. *)
Definition report (meters : R) (credibility : string) : GpsUtils.AnyIncident.t :=
  {| GpsUtils.AnyIncident.lat := 0;
     GpsUtils.AnyIncident.lng := metersEast meters;
     GpsUtils.AnyIncident.credibility := credibility |}.

End Example.

(** * Properties *)

(** ** Geometry *)

Lemma atan2_pos_x y x : 0 < x -> Math.atan2 y x = atan (y / x).
Proof.
  intros Hx. unfold Math.atan2.
  destruct (Rlt_dec 0 x); [reflexivity | contradiction].
Qed.

(** Along the equator, eastwards, the haversine distance is the arc length. *)
Lemma calculateDistance_equator lng1 lng2 :
  0 <= lng2 - lng1 -> lng2 - lng1 < 180 ->
  calculateDistance 0 lng1 0 lng2 = 6371000 * ((lng2 - lng1) * PI / 180).
Proof.
  intros H0 H180. unfold calculateDistance. cbv zeta.
  pose proof PI_RGT_0 as Hpi.
  set (h := (lng2 - lng1) * PI / 180 / 2).
  assert (Hh : 0 <= h < PI / 2) by (unfold h; split; nra).
  replace ((0 - 0) * PI / 180 / 2) with 0 by lra.
  replace (0 * PI / 180) with 0 by lra.
  rewrite sin_0, cos_0.
  assert (Hc : 0 < cos h) by (apply cos_gt_0; lra).
  replace (0 * 0 + 1 * 1 * sin h * sin h) with (Rsqr (sin h))
    by (unfold Rsqr; ring).
  assert (Hs : 0 <= sin h) by (apply sin_ge_0; lra).
  rewrite sqrt_Rsqr by exact Hs.
  replace (1 - Rsqr (sin h)) with (Rsqr (cos h))
    by (pose proof (sin2_cos2 h); lra).
  rewrite sqrt_Rsqr by lra.
  rewrite atan2_pos_x by exact Hc.
  change (sin h / cos h) with (tan h).
  rewrite atan_tan by lra.
  unfold h. field.
Qed.

Lemma metersEast_sub a b :
  Example.metersEast b - Example.metersEast a = Example.metersEast (b - a).
Proof. unfold Example.metersEast. pose proof PI_RGT_0. field. lra. Qed.

(** Up to 19,000 km the longitude stays below 180 degrees, since 3 < PI. *)
Lemma metersEast_range m :
  0 <= m -> m <= 19000000 -> 0 <= Example.metersEast m < 180.
Proof.
  intros H0 H1. unfold Example.metersEast. pose proof PI2_3_2 as Hpi.
  assert (Hk : 0 < 6371000 * PI) by lra.
  split.
  - apply Rmult_le_pos; [lra|]. apply Rlt_le, Rinv_0_lt_compat, Hk.
  - apply (Rmult_lt_reg_r (6371000 * PI)); [exact Hk|].
    unfold Rdiv. rewrite Rmult_assoc, Rinv_l by lra. lra.
Qed.

(** The distance between two sample points is the difference of their
    distances from the origin. *)
Lemma calculateDistance_metersEast a b :
  0 <= b - a -> b - a <= 19000000 ->
  calculateDistance 0 (Example.metersEast a) 0 (Example.metersEast b) = b - a.
Proof.
  intros H0 H1. destruct (metersEast_range (b - a) H0 H1) as [Hlo Hhi].
  rewrite calculateDistance_equator; rewrite metersEast_sub; try assumption.
  unfold Example.metersEast. pose proof PI_RGT_0. field. lra.
Qed.

Lemma metersEast_0 : Example.metersEast 0 = 0.
Proof. unfold Example.metersEast. lra. Qed.

Lemma calculateDistance_origin m :
  0 <= m -> m <= 19000000 ->
  calculateDistance 0 0 0 (Example.metersEast m) = m.
Proof.
  intros H0 H1. pose proof (calculateDistance_metersEast 0 m) as Hm.
  rewrite metersEast_0 in Hm. rewrite Hm; lra.
Qed.

(** ** The running minimum and the two proximity tests *)

Lemma xleb_min (m : xnumber) (d t : R) :
  xleb (Math.min m d) t = true <-> xleb m t = true \/ d <= t.
Proof.
  destruct m as [|x]; simpl.
  - split.
    + intros H%bool_decide_eq_true. right. exact H.
    + intros [H | H]; [discriminate | apply bool_decide_eq_true; exact H].
  - unfold Rmin. split.
    + intros H%bool_decide_eq_true.
      destruct (Rle_dec x d); [left; apply bool_decide_eq_true | right]; lra.
    + intros H. apply bool_decide_eq_true.
      destruct H as [H%bool_decide_eq_true | H]; destruct (Rle_dec x d); lra.
Qed.

Lemma minDistanceToIncident_snoc (l : list (R * R)) (p : R * R) incident :
  minDistanceToIncident (l ++ [p]) incident
  = Math.min (minDistanceToIncident l incident)
      (calculateDistance p.1 p.2 (Incident.lat incident) (Incident.lng incident)).
Proof.
  unfold minDistanceToIncident. rewrite foldl_app. simpl.
  destruct p as [lat lng]. reflexivity.
Qed.

Lemma xleb_minDistance routeCoordinates incident (t : R) :
  xleb (minDistanceToIncident routeCoordinates incident) t = true
  <-> withinRadius routeCoordinates incident t.
Proof.
  induction routeCoordinates as [|p l IH] using rev_ind.
  - unfold withinRadius. simpl. split; [discriminate|].
    intros (p & Hp & _). apply elem_of_nil in Hp. destruct Hp.
  - rewrite minDistanceToIncident_snoc, xleb_min, IH. unfold withinRadius.
    split.
    + intros [(q & Hq & Hd) | Hd].
      * exists q. split; [apply elem_of_app; left; exact Hq | exact Hd].
      * exists p. split; [apply elem_of_app; right; apply list_elem_of_singleton; reflexivity | exact Hd].
    + intros (q & Hq & Hd). apply elem_of_app in Hq as [Hq | Hq].
      * left. exists q. tauto.
      * apply list_elem_of_singleton in Hq. subst q. right. exact Hd.
Qed.

Lemma nearRoute_withinRadius routeCoordinates incident (t : R) :
  nearRoute routeCoordinates incident t = true
  <-> withinRadius routeCoordinates incident t.
Proof.
  unfold withinRadius. induction routeCoordinates as [|[lat lng] l IH]; simpl.
  - split; [discriminate|]. intros (p & Hp & _). apply elem_of_nil in Hp. destruct Hp.
  - case_bool_decide as Hd.
    + split; [|reflexivity]. intros _. exists (lat, lng).
      split; [left | exact Hd].
    + rewrite IH. split.
      * intros (q & Hq & Hq'). exists q. split; [right; exact Hq | exact Hq'].
      * intros (q & Hq & Hq'). apply elem_of_cons in Hq as [-> | Hq].
        -- contradiction.
        -- exists q. tauto.
Qed.

(** The running minimum is the minimum distance of the specification. *)
Lemma minDistanceToIncident_cases routeCoordinates incident :
  (routeCoordinates = [] /\ minDistanceToIncident routeCoordinates incident = Infinity)
  \/ exists d : R,
       minDistanceToIncident routeCoordinates incident = Finite d
       /\ minimumDistance routeCoordinates incident d.
Proof.
  induction routeCoordinates as [|p l IH] using rev_ind.
  - left. split; reflexivity.
  - right. rewrite minDistanceToIncident_snoc.
    set (dp := calculateDistance p.1 p.2 (Incident.lat incident) (Incident.lng incident)).
    destruct IH as [[-> ->] | (d & -> & (q & Hq & Hqd) & Hlow)].
    + exists dp. split; [reflexivity|]. split.
      * exists p. split; [left | reflexivity].
      * intros q Hq. apply list_elem_of_singleton in Hq. subst q.
        apply Rle_refl.
    + exists (Rmin d dp). split; [reflexivity|]. split.
      * unfold Rmin. destruct (Rle_dec d dp).
        -- exists q. split; [apply elem_of_app; left; exact Hq | exact Hqd].
        -- exists p. split; [|reflexivity].
           apply elem_of_app. right. apply list_elem_of_singleton. reflexivity.
      * intros r Hr. apply elem_of_app in Hr as [Hr | Hr].
        -- apply Rle_trans with d; [apply Rmin_l | apply Hlow, Hr].
        -- apply list_elem_of_singleton in Hr. subst r. apply Rmin_r.
Qed.

Lemma minimumDistance_unique routeCoordinates incident d d' :
  minimumDistance routeCoordinates incident d ->
  minimumDistance routeCoordinates incident d' -> d = d'.
Proof.
  intros [(p & Hp & Hpd) Hlow] [(p' & Hp' & Hpd') Hlow'].
  apply Rle_antisym.
  - rewrite <- Hpd'. apply Hlow, Hp'.
  - rewrite <- Hpd. apply Hlow', Hp.
Qed.

Lemma minDistanceToIncident_spec routeCoordinates incident (d : R) :
  minDistanceToIncident routeCoordinates incident = Finite d
  <-> minimumDistance routeCoordinates incident d.
Proof.
  destruct (minDistanceToIncident_cases routeCoordinates incident)
    as [[Hnil Hinf] | (d' & Hfin & Hmin)].
  - rewrite Hinf. split; [discriminate|].
    intros [(p & Hp & _) _]. rewrite Hnil in Hp.
    apply elem_of_nil in Hp. destruct Hp.
  - rewrite Hfin. split.
    + intros [= <-]. exact Hmin.
    + intros Hd. f_equal. eapply minimumDistance_unique; eassumption.
Qed.

Lemma minimumDistance_withinRadius routeCoordinates incident d (t : R) :
  minimumDistance routeCoordinates incident d ->
  (withinRadius routeCoordinates incident t <-> d <= t).
Proof.
  intros [(p & Hp & Hpd) Hlow]. split.
  - intros (q & Hq & Hqt). apply Rle_trans with (1 := Hlow q Hq). exact Hqt.
  - intros Hdt. exists p. split; [exact Hp | rewrite Hpd; exact Hdt].
Qed.

(** ** The weights *)

Lemma INCIDENT_WEIGHTS_pos key : 0 < INCIDENT_WEIGHTS key.
Proof. destruct key; simpl; lra. Qed.

Lemma weight_nonneg m incident : 0 <= weight m incident.
Proof.
  unfold weight. repeat case_match; simpl; try lra.
  apply Rlt_le, INCIDENT_WEIGHTS_pos.
Qed.

Lemma weight_high (d : R) incident :
  Incident.credibility incident = high ->
  weight d incident =
    if bool_decide (d <= 200) then 500000
    else if bool_decide (d <= 400) then 250000
    else if bool_decide (d <= 600) then 100000
    else 0.
Proof.
  intros Hhigh. unfold weight. rewrite decide_True by exact Hhigh. simpl.
  repeat case_bool_decide; lra.
Qed.

Lemma weight_flat m incident :
  Incident.credibility incident <> high ->
  weight m incident = INCIDENT_WEIGHTS (Incident.credibility incident).
Proof. intros Hne. unfold weight. rewrite decide_False by exact Hne. reflexivity. Qed.

(** The products that give the weights of the middle and outer zones are
    exact on doubles: 250000 and 100000. *)
Section Doubles.

Import PrimFloat.

Lemma zone_weights_on_doubles :
  PrimFloat.eqb Double.middleZoneWeight 250000%float = true
  /\ PrimFloat.eqb Double.outerZoneWeight 100000%float = true.
Proof. split; vm_compute; reflexivity. Qed.

End Doubles.

(** ** One turn of the cost loop *)

Lemma costLoop_far routeCoordinates locals incident :
  ~ withinRadius routeCoordinates incident 600 ->
  costLoop routeCoordinates locals incident = locals.
Proof.
  intros Hfar. destruct locals as [cost met]. unfold costLoop.
  destruct (xleb _ INCIDENT_DETECTION_RADIUS) eqn:Hle; [|reflexivity].
  apply xleb_minDistance in Hle. contradiction.
Qed.

Lemma costLoop_met routeCoordinates cost (met : gset string) incident :
  Incident.id incident ∈ met ->
  costLoop routeCoordinates (cost, met) incident = (cost, met).
Proof.
  intros Hmet. unfold costLoop. rewrite bool_decide_eq_true_2 by exact Hmet.
  simpl. destruct (xleb _ _); reflexivity.
Qed.

Lemma costLoop_new routeCoordinates cost (met : gset string) incident :
  withinRadius routeCoordinates incident 600 ->
  Incident.id incident ∉ met ->
  costLoop routeCoordinates (cost, met) incident
  = (cost + penalty routeCoordinates incident, {[Incident.id incident]} ∪ met).
Proof.
  intros Hnear Hnew. unfold costLoop.
  apply xleb_minDistance in Hnear. unfold INCIDENT_DETECTION_RADIUS.
  rewrite Hnear, bool_decide_eq_false_2 by exact Hnew. reflexivity.
Qed.

Lemma costLoop_cost_le routeCoordinates locals incident :
  locals.1 <= (costLoop routeCoordinates locals incident).1.
Proof.
  destruct locals as [cost met]. unfold costLoop.
  pose proof (weight_nonneg (minDistanceToIncident routeCoordinates incident) incident).
  repeat case_match; simpl; lra.
Qed.

(** ** The whole loop: the cost is the base plus the penalties met *)

Lemma total_app l1 l2 : total (l1 ++ l2) = total l1 + total l2.
Proof. unfold total. induction l1 as [|x l1 IH]; simpl; lra. Qed.

Lemma total_nonneg l : Forall (fun x => 0 <= x) l -> 0 <= total l.
Proof. unfold total. induction 1; simpl; lra. Qed.

Lemma foldl_costLoop routeCoordinates incidents : forall cost (met : gset string),
  foldl (costLoop routeCoordinates) (cost, met) incidents
  = (cost + total (penalty routeCoordinates <$> penalized routeCoordinates met incidents),
     met ∪ list_to_set (Incident.id <$> penalized routeCoordinates met incidents)).
Proof.
  induction incidents as [|incident rest IH]; intros cost met;
    cbn [foldl penalized].
  - unfold total. simpl. f_equal; [lra | set_solver].
  - case_decide as Hcase.
    + destruct Hcase as [Hnear Hnew].
      rewrite costLoop_new, IH by assumption. simpl.
      f_equal; [apply Rplus_assoc | set_solver].
    + rewrite <- IH. f_equal.
      destruct (decide (withinRadius routeCoordinates incident 600)) as [Hnear | Hfar].
      * apply costLoop_met. apply dec_stable. tauto.
      * apply costLoop_far, Hfar.
Qed.

Lemma calculateRouteCost_penalized routeCoordinates distance duration incidents :
  calculateRouteCost routeCoordinates distance duration incidents
  = distance + duration
    + total (penalty routeCoordinates <$> penalized routeCoordinates ∅ incidents).
Proof. unfold calculateRouteCost. rewrite foldl_costLoop. reflexivity. Qed.

Lemma penalized_app routeCoordinates l1 l2 : forall met : gset string,
  penalized routeCoordinates met (l1 ++ l2)
  = penalized routeCoordinates met l1
    ++ penalized routeCoordinates
         (met ∪ list_to_set (Incident.id <$> penalized routeCoordinates met l1)) l2.
Proof.
  induction l1 as [|incident l1 IH]; intros met; simpl.
  - f_equal. set_solver.
  - case_decide; simpl; rewrite IH; [|reflexivity].
    do 3 f_equal. set_solver.
Qed.

(** An id that no incident of the list bears can be met or not: the list
    is penalized the same way. *)
Lemma penalized_fresh routeCoordinates x l : forall met : gset string,
  x ∉ Incident.id <$> l ->
  penalized routeCoordinates ({[x]} ∪ met) l = penalized routeCoordinates met l.
Proof.
  induction l as [|incident l IH]; intros met Hx; simpl; [reflexivity|].
  rewrite fmap_cons in Hx. apply not_elem_of_cons in Hx as [Hne Hx].
  repeat case_decide.
  - f_equal. rewrite <- (IH ({[Incident.id incident]} ∪ met) Hx).
    f_equal. set_solver.
  - exfalso. set_solver.
  - exfalso. set_solver.
  - apply IH, Hx.
Qed.

Lemma penalized_ids routeCoordinates l : forall met : gset string,
  NoDup (Incident.id <$> penalized routeCoordinates met l)
  /\ forall x, x ∈ Incident.id <$> penalized routeCoordinates met l -> x ∉ met.
Proof.
  induction l as [|incident l IH]; intros met; simpl.
  - split; [constructor | intros x Hx; apply elem_of_nil in Hx; destruct Hx].
  - case_decide as Hcase; [|apply IH].
    destruct (IH ({[Incident.id incident]} ∪ met)) as [Hnd Hout]. simpl. split.
    + constructor; [|exact Hnd]. intros Hin. apply Hout in Hin. set_solver.
    + intros x Hx. apply elem_of_cons in Hx as [-> | Hx]; [tauto|].
      apply Hout in Hx. set_solver.
Qed.

Lemma penalized_sublist routeCoordinates l : forall met : gset string,
  penalized routeCoordinates met l `sublist_of` l.
Proof.
  induction l as [|incident l IH]; intros met; simpl; [constructor|].
  case_decide; [apply sublist_skip | apply sublist_cons]; apply IH.
Qed.

Lemma penalized_subseteq_ids routeCoordinates l (met : gset string) x :
  x ∈ Incident.id <$> penalized routeCoordinates met l -> x ∈ Incident.id <$> l.
Proof.
  apply sublist_subseteq, fmap_sublist, penalized_sublist.
Qed.

(** Inserting an incident whose id is new among the others. *)
Lemma penalized_insert routeCoordinates pre incident post :
  Incident.id incident ∉ Incident.id <$> (pre ++ post) ->
  total (penalty routeCoordinates <$> penalized routeCoordinates ∅ (pre ++ incident :: post))
  = total (penalty routeCoordinates <$> penalized routeCoordinates ∅ (pre ++ post))
    + (if decide (withinRadius routeCoordinates incident 600)
       then penalty routeCoordinates incident else 0).
Proof.
  intros Hnew. rewrite fmap_app, not_elem_of_app in Hnew. destruct Hnew as [Hpre Hpost].
  rewrite !penalized_app, !fmap_app, !total_app. simpl.
  assert (Hmet : Incident.id incident ∉
            (∅ ∪ list_to_set (Incident.id <$> penalized routeCoordinates ∅ pre) : gset string)).
  { intros Hin. apply Hpre. apply elem_of_union in Hin as [Hin | Hin]; [set_solver|].
    apply elem_of_list_to_set in Hin.
    eapply penalized_subseteq_ids, Hin. }
  destruct (decide (withinRadius routeCoordinates incident 600)) as [Hnear | Hfar].
  - rewrite decide_True by tauto. rewrite fmap_cons.
    rewrite penalized_fresh by exact Hpost.
    change (total (?x :: ?l)) with (x + total l). lra.
  - rewrite decide_False by tauto. lra.
Qed.

(** ** The sample route *)

Lemma minimumDistance_singleton p incident :
  minimumDistance [p] incident
    (calculateDistance p.1 p.2 (Incident.lat incident) (Incident.lng incident)).
Proof.
  split.
  - exists p. split; [left | reflexivity].
  - intros q Hq. apply list_elem_of_singleton in Hq. subst q. apply Rle_refl.
Qed.

(** An incident placed [m] meters east has minimum distance [m] to the
    sample route. *)
Lemma sample_minimumDistance id m credibility :
  0 <= m -> m <= 19000000 ->
  minimumDistance Example.route (Example.incidentAt id m credibility) m.
Proof.
  intros H0 H1.
  pose proof (minimumDistance_singleton (0, 0) (Example.incidentAt id m credibility))
    as Hmin.
  simpl in Hmin. rewrite calculateDistance_origin in Hmin by assumption.
  exact Hmin.
Qed.

Lemma sample_near id m credibility (t : R) :
  0 <= m -> m <= 19000000 -> m <= t ->
  withinRadius Example.route (Example.incidentAt id m credibility) t.
Proof.
  intros H0 H1 Ht.
  apply (minimumDistance_withinRadius _ _ _ _ (sample_minimumDistance id m credibility H0 H1)).
  exact Ht.
Qed.

Lemma sample_far id m credibility (t : R) :
  0 <= m -> m <= 19000000 -> t < m ->
  ~ withinRadius Example.route (Example.incidentAt id m credibility) t.
Proof.
  intros H0 H1 Ht Hnear.
  apply (minimumDistance_withinRadius _ _ _ _ (sample_minimumDistance id m credibility H0 H1))
    in Hnear.
  lra.
Qed.

Ltac solve_near := apply sample_near; lra.
Ltac solve_far := apply sample_far; lra.

(** ** The scenarios of the specification, on the sample data *)

Lemma xleb_minDistance_decide routeCoordinates incident (t : R) :
  xleb (minDistanceToIncident routeCoordinates incident) t
  = bool_decide (withinRadius routeCoordinates incident t).
Proof.
  destruct (xleb _ t) eqn:Hle; symmetry.
  - apply bool_decide_eq_true_2, xleb_minDistance, Hle.
  - apply bool_decide_eq_false_2. intros Hnear%xleb_minDistance. congruence.
Qed.

Lemma penalty_high routeCoordinates incident :
  Incident.credibility incident = high ->
  penalty routeCoordinates incident =
    if bool_decide (withinRadius routeCoordinates incident 200) then 500000
    else if bool_decide (withinRadius routeCoordinates incident 400) then 250000
    else if bool_decide (withinRadius routeCoordinates incident 600) then 100000
    else 0.
Proof.
  intros Hhigh. unfold penalty, weight. rewrite decide_True by exact Hhigh.
  simpl. rewrite !xleb_minDistance_decide. repeat case_bool_decide; lra.
Qed.

Lemma penalty_flat routeCoordinates incident :
  Incident.credibility incident <> high ->
  penalty routeCoordinates incident = INCIDENT_WEIGHTS (Incident.credibility incident).
Proof. apply weight_flat. Qed.

Lemma sample_withinRadius_decide id m credibility (t : R) :
  0 <= m -> m <= 19000000 ->
  bool_decide (withinRadius Example.route (Example.incidentAt id m credibility) t)
  = bool_decide (m <= t).
Proof.
  intros H0 H1.
  apply bool_decide_ext, minimumDistance_withinRadius, sample_minimumDistance;
    assumption.
Qed.

(** The cost of the sample route with one high-credibility incident. *)
Lemma sample_hazard_cost m :
  0 <= m -> m <= 19000000 ->
  calculateRouteCost Example.route 1000 120 [Example.hazard m]
  = 1120 + (if bool_decide (m <= 200) then 500000
            else if bool_decide (m <= 400) then 250000
            else if bool_decide (m <= 600) then 100000
            else 0).
Proof.
  intros H0 H1. unfold calculateRouteCost, Example.hazard. cbn [foldl].
  destruct (decide (m <= 600)) as [Hin | Hout].
  - rewrite costLoop_new; [|solve_near|set_solver].
    rewrite penalty_high by reflexivity.
    rewrite !sample_withinRadius_decide by assumption. simpl. lra.
  - rewrite costLoop_far by solve_far. simpl.
    repeat case_bool_decide; lra.
Qed.

(** No incident: the cost is 1120. *)
Example scenario_no_incident :
  calculateRouteCost Example.route 1000 120 [] = 1120.
Proof. unfold calculateRouteCost. simpl. lra. Qed.

(** One high-credibility incident at 150 m: 1120 + 500000. *)
Example scenario_high_150m :
  calculateRouteCost Example.route 1000 120 [Example.fire] = 501120.
Proof.
  unfold calculateRouteCost. cbn [foldl].
  rewrite costLoop_new; [|solve_near|set_solver].
  rewrite penalty_high by reflexivity.
  rewrite bool_decide_eq_true_2 by solve_near. simpl. lra.
Qed.

(** One medium-credibility incident at 5000 m: no penalty. *)
Example scenario_medium_5000m :
  calculateRouteCost Example.route 1000 120 [Example.protest] = 1120.
Proof.
  unfold calculateRouteCost. cbn [foldl].
  rewrite costLoop_far by solve_far. simpl. lra.
Qed.

(** Two low-credibility incidents within the radius: 1120 + 3000 + 3000. *)
Example scenario_two_low :
  calculateRouteCost Example.route 1000 120 [Example.pothole; Example.puddle] = 7120.
Proof.
  unfold calculateRouteCost. cbn [foldl].
  rewrite costLoop_new; [|solve_near|set_solver].
  rewrite costLoop_new; [|solve_near|set_solver].
  rewrite !penalty_flat by discriminate. simpl. lra.
Qed.

(** The zone bounds belong to the zone below them: 200 m is in the inner
    zone, 400 m in the middle one, 600 m in the outer one; a meter more
    falls into the next zone, or out of the radius. *)
Example scenario_boundaries :
  calculateRouteCost Example.route 1000 120 [Example.hazard 199] = 501120
  /\ calculateRouteCost Example.route 1000 120 [Example.hazard 200] = 501120
  /\ calculateRouteCost Example.route 1000 120 [Example.hazard 201] = 251120
  /\ calculateRouteCost Example.route 1000 120 [Example.hazard 400] = 251120
  /\ calculateRouteCost Example.route 1000 120 [Example.hazard 401] = 101120
  /\ calculateRouteCost Example.route 1000 120 [Example.hazard 600] = 101120
  /\ calculateRouteCost Example.route 1000 120 [Example.hazard 601] = 1120.
Proof.
  repeat split; rewrite sample_hazard_cost by lra;
    repeat case_bool_decide; lra.
Qed.

(** An incident within 200 m of both points of a route is charged once. *)
Example scenario_near_two_points :
  Forall (fun p : R * R =>
            calculateDistance p.1 p.2
              (Incident.lat Example.ember) (Incident.lng Example.ember) <= 200)
         Example.route2
  /\ calculateRouteCost Example.route2 1000 120 [Example.ember] = 501120.
Proof.
  assert (Hfirst : calculateDistance 0 0 0 (Example.metersEast 120) = 120)
    by (apply calculateDistance_origin; lra).
  assert (Hsecond :
    calculateDistance 0 (Example.metersEast 100) 0 (Example.metersEast 120) = 20)
    by (rewrite calculateDistance_metersEast; lra).
  split.
  { constructor; [simpl; lra|]. constructor; [simpl; lra|]. constructor. }
  assert (Hnear : forall t : R, 200 <= t ->
            withinRadius Example.route2 Example.ember t).
  { intros t Ht. exists (0, 0). split; [left | simpl; lra]. }
  unfold calculateRouteCost. cbn [foldl].
  rewrite costLoop_new; [|apply Hnear; lra|set_solver].
  rewrite penalty_high by reflexivity.
  rewrite bool_decide_eq_true_2 by (apply Hnear; lra). simpl. lra.
Qed.

(** A second report under an id already charged adds nothing. *)
Example scenario_same_id_twice :
  calculateRouteCost Example.route 1000 120 [Example.fire; Example.fireAgain] = 501120.
Proof.
  unfold calculateRouteCost. cbn [foldl].
  rewrite costLoop_new; [|solve_near|set_solver].
  rewrite costLoop_met by set_solver.
  rewrite penalty_high by reflexivity.
  rewrite bool_decide_eq_true_2 by solve_near. simpl. lra.
Qed.

(** Only the first report under an id is charged: a low-credibility report
    placed before a high-credibility one of the same id takes its place. *)
Example scenario_same_id_first_wins :
  calculateRouteCost Example.route 1000 120 [Example.fire] = 501120
  /\ calculateRouteCost Example.route 1000 120 [Example.rumour; Example.fire] = 4120.
Proof.
  unfold calculateRouteCost. cbn [foldl]. split.
  - rewrite costLoop_new; [|solve_near|set_solver].
    rewrite penalty_high by reflexivity.
    rewrite bool_decide_eq_true_2 by solve_near. simpl. lra.
  - rewrite costLoop_new; [|solve_near|set_solver].
    rewrite costLoop_met by set_solver.
    rewrite penalty_flat by discriminate. simpl. lra.
Qed.

(** An incident appended to the evaluation never lowers the cost, whatever
    its id. *)
Lemma appending_incident_monotone routeCoordinates distance duration incidents incident :
  calculateRouteCost routeCoordinates distance duration incidents
  <= calculateRouteCost routeCoordinates distance duration (incidents ++ [incident]).
Proof.
  unfold calculateRouteCost. rewrite foldl_app. cbn [foldl].
  apply costLoop_cost_le.
Qed.

(** At the same place, high outweighs medium, which outweighs low. *)
Lemma credibility_ordering routeCoordinates a b c :
  Incident.credibility a = high -> withinRadius routeCoordinates a 200 ->
  Incident.credibility b = medium -> Incident.credibility c = low ->
  penalty routeCoordinates c < penalty routeCoordinates b
  /\ penalty routeCoordinates b < penalty routeCoordinates a.
Proof.
  intros Ha Hnear Hb Hc.
  rewrite (penalty_high _ a Ha), bool_decide_eq_true_2 by exact Hnear.
  rewrite !penalty_flat by congruence. rewrite Hb, Hc. simpl. lra.
Qed.

(** * The cost model *)

(** C1. A high-credibility incident whose minimum distance [d] to the
    points of the route is within the detection radius, and whose id no
    other incident of the evaluation bears, raises the cost by 500,000
    when [d <= 200] (200 m included), by 250,000 when [200 < d <= 400],
    and by 100,000 when [400 < d <= 600]. *)
Theorem high_credibility_gradient routeCoordinates distance duration pre incident post d :
  Incident.credibility incident = high ->
  minimumDistance routeCoordinates incident d ->
  Incident.id incident ∉ Incident.id <$> (pre ++ post) ->
  let without := calculateRouteCost routeCoordinates distance duration (pre ++ post) in
  let cost := calculateRouteCost routeCoordinates distance duration (pre ++ incident :: post) in
  (d <= 200 -> cost = without + 500000) /\
  (200 < d <= 400 -> cost = without + 250000) /\
  (400 < d <= 600 -> cost = without + 100000).
Proof.
  intros Hhigh Hmin Hnew without cost. subst without cost.
  rewrite !calculateRouteCost_penalized, (penalized_insert _ _ _ _ Hnew).
  pose proof (minimumDistance_withinRadius _ _ _ 600 Hmin) as Hnear.
  apply minDistanceToIncident_spec in Hmin.
  unfold penalty. rewrite Hmin, (weight_high _ _ Hhigh).
  repeat split; intros Hd.
  - rewrite decide_True by (apply Hnear; lra).
    rewrite bool_decide_eq_true_2 by lra. lra.
  - rewrite decide_True by (apply Hnear; lra).
    rewrite bool_decide_eq_false_2, bool_decide_eq_true_2 by lra. lra.
  - rewrite decide_True by (apply Hnear; lra).
    rewrite 2 bool_decide_eq_false_2, bool_decide_eq_true_2 by lra. lra.
Qed.

Lemma high_credibility_gradient_witness :
  calculateRouteCost Example.route 1000 120 [Example.hazard 200] = 1120 + 500000
  /\ calculateRouteCost Example.route 1000 120 [Example.pothole; Example.hazard 400]
     = calculateRouteCost Example.route 1000 120 [Example.pothole] + 250000
  /\ calculateRouteCost Example.route 1000 120 [Example.hazard 600; Example.pothole]
     = calculateRouteCost Example.route 1000 120 [Example.pothole] + 100000.
Proof.
  split; [|split].
  - replace (1120 + 500000)
      with (calculateRouteCost Example.route 1000 120 ([] ++ []) + 500000)
      by (unfold calculateRouteCost; simpl; lra).
    apply (high_credibility_gradient Example.route 1000 120 [] (Example.hazard 200) [] 200).
    + reflexivity.
    + apply sample_minimumDistance; lra.
    + apply not_elem_of_nil.
    + lra.
  - apply (high_credibility_gradient Example.route 1000 120
             [Example.pothole] (Example.hazard 400) [] 400).
    + reflexivity.
    + apply sample_minimumDistance; lra.
    + simpl. intros Hin. apply list_elem_of_singleton in Hin. discriminate Hin.
    + lra.
  - apply (high_credibility_gradient Example.route 1000 120
             [] (Example.hazard 600) [Example.pothole] 600).
    + reflexivity.
    + apply sample_minimumDistance; lra.
    + simpl. intros Hin. apply list_elem_of_singleton in Hin. discriminate Hin.
    + lra.
Defined.

(** C2. With no incident the cost is the distance plus the duration. *)
Theorem empty_incidents_cost routeCoordinates distance duration :
  calculateRouteCost routeCoordinates distance duration [] = distance + duration.
Proof. reflexivity. Qed.

(** C3. The cost is never below the distance plus the duration: a turn of
    the loop never lowers the running cost, and so neither does the whole
    evaluation. *)
Theorem cost_at_least_base routeCoordinates distance duration incidents :
  (forall locals incident,
     locals.1 <= (costLoop routeCoordinates locals incident).1)
  /\ distance + duration
     <= calculateRouteCost routeCoordinates distance duration incidents.
Proof.
  split.
  - apply costLoop_cost_le.
  - rewrite calculateRouteCost_penalized.
    assert (0 <= total (penalty routeCoordinates
                          <$> penalized routeCoordinates ∅ incidents)); [|lra].
    apply total_nonneg, Forall_fmap, Forall_forall.
    intros incident _. apply weight_nonneg.
Qed.

(** C4. One evaluation adds at most one penalty per incident id: the cost
    is the base plus one penalty for each incident of a sublist of the
    incidents in which no id occurs twice.  The penalty of an incident is
    a single weight, chosen by its least distance to the route, however
    many points of the route are near it. *)
Theorem one_penalty_per_incident routeCoordinates distance duration incidents :
  let charged := penalized routeCoordinates ∅ incidents in
  calculateRouteCost routeCoordinates distance duration incidents
  = distance + duration + total (penalty routeCoordinates <$> charged)
  /\ NoDup (Incident.id <$> charged)
  /\ charged `sublist_of` incidents.
Proof.
  intros charged. split; [|split].
  - apply calculateRouteCost_penalized.
  - apply penalized_ids.
  - apply penalized_sublist.
Qed.

(** C5. An incident, of any credibility, farther than 600 m from every
    point of the route adds nothing to the cost. *)
Theorem beyond_detection_radius routeCoordinates distance duration pre incident post :
  (forall p, p ∈ routeCoordinates ->
     600 < calculateDistance p.1 p.2 (Incident.lat incident) (Incident.lng incident)) ->
  calculateRouteCost routeCoordinates distance duration (pre ++ incident :: post)
  = calculateRouteCost routeCoordinates distance duration (pre ++ post).
Proof.
  intros Hfar. unfold calculateRouteCost. rewrite !foldl_app. cbn [foldl].
  rewrite costLoop_far; [reflexivity|].
  intros (p & Hp & Hnear). specialize (Hfar p Hp). lra.
Qed.

Lemma beyond_detection_radius_witness :
  calculateRouteCost Example.route 1000 120 [Example.pothole; Example.hazard 601]
  = calculateRouteCost Example.route 1000 120 [Example.pothole]
  /\ calculateRouteCost Example.route 1000 120 [Example.protest] = 1120.
Proof.
  split.
  - apply (beyond_detection_radius Example.route 1000 120
             [Example.pothole] (Example.hazard 601) []).
    intros p Hp. apply list_elem_of_singleton in Hp. subst p. simpl.
    rewrite calculateDistance_origin; lra.
  - replace 1120 with (calculateRouteCost Example.route 1000 120 ([] ++ []))
      by (unfold calculateRouteCost; simpl; lra).
    apply (beyond_detection_radius Example.route 1000 120 [] Example.protest []).
    intros p Hp. apply list_elem_of_singleton in Hp. subst p. simpl.
    rewrite calculateDistance_origin; lra.
Defined.

(** C6. Adding to the evaluation an incident within the detection radius,
    under an id that none of the incidents already there bears, never
    lowers the cost. *)
Theorem adding_incident_monotone routeCoordinates distance duration pre incident post d :
  Incident.id incident ∉ Incident.id <$> (pre ++ post) ->
  minimumDistance routeCoordinates incident d ->
  d <= 600 ->
  calculateRouteCost routeCoordinates distance duration (pre ++ post)
  <= calculateRouteCost routeCoordinates distance duration (pre ++ incident :: post).
Proof.
  intros Hnew Hmin Hd.
  rewrite !calculateRouteCost_penalized, (penalized_insert _ _ _ _ Hnew).
  pose proof (weight_nonneg (minDistanceToIncident routeCoordinates incident) incident).
  unfold penalty. case_decide; lra.
Qed.

Lemma adding_incident_monotone_witness :
  calculateRouteCost Example.route 1000 120 [Example.pothole; Example.fire]
  <= calculateRouteCost Example.route 1000 120 [Example.pothole; Example.puddle; Example.fire].
Proof.
  apply (adding_incident_monotone Example.route 1000 120
           [Example.pothole] Example.puddle [Example.fire] 100).
  - simpl. intros Hin.
    apply elem_of_cons in Hin as [Hin | Hin]; [discriminate Hin|].
    apply list_elem_of_singleton in Hin. discriminate Hin.
  - apply sample_minimumDistance; lra.
  - lra.
Defined.

(** * The route selector *)

Lemma run_getRoute start end_ mode incidents net :
  run (getRoute start end_ mode incidents) net
  = match valhalla net start end_ mode with
    | Some directRoute => (Some directRoute, [ValhallaRequest start end_ mode])
    | None =>
        (osrm net start end_ mode,
         [ValhallaRequest start end_ mode; OSRMRequest start end_ mode])
    end.
Proof.
  unfold run, getRoute, getValhallaRoute, getOSRMRoute, mbind, Promise_bind, mret, Promise_ret.
  simpl. destruct (valhalla net start end_ mode); reflexivity.
Qed.

(** C7. When Valhalla fails, [getRoute] sends the request to OSRM after
    the one to Valhalla and answers what OSRM answers; it answers [null]
    only when both providers have been asked and both have failed. *)
Theorem fallback_before_not_found start end_ mode incidents net :
  (valhalla net start end_ mode = None ->
   run (getRoute start end_ mode incidents) net
   = (osrm net start end_ mode,
      [ValhallaRequest start end_ mode; OSRMRequest start end_ mode]))
  /\ ((run (getRoute start end_ mode incidents) net).1 = None ->
      valhalla net start end_ mode = None
      /\ osrm net start end_ mode = None
      /\ (run (getRoute start end_ mode incidents) net).2
         = [ValhallaRequest start end_ mode; OSRMRequest start end_ mode]).
Proof.
  rewrite run_getRoute. split.
  - intros ->. reflexivity.
  - destruct (valhalla net start end_ mode); simpl; [discriminate|].
    intros ->. repeat split.
Qed.

Lemma fallback_before_not_found_witness :
  run (getRoute Example.here Example.there walking None) Example.valhallaDown
  = (Some Example.answer,
     [ValhallaRequest Example.here Example.there walking;
      OSRMRequest Example.here Example.there walking])
  /\ (run (getRoute Example.here Example.there driving (Some [Example.fire]))
        Example.allDown).2
     = [ValhallaRequest Example.here Example.there driving;
        OSRMRequest Example.here Example.there driving].
Proof.
  split.
  - apply (fallback_before_not_found Example.here Example.there walking None
             Example.valhallaDown).
    reflexivity.
  - apply (fallback_before_not_found Example.here Example.there driving
             (Some [Example.fire]) Example.allDown).
    reflexivity.
Defined.

(** C8. The route [getRoute] answers, and the requests it sends, are the
    same whatever the incidents passed to it. *)
Theorem getRoute_ignores_incidents start end_ mode incidents incidents' :
  getRoute start end_ mode incidents = getRoute start end_ mode incidents'.
Proof. reflexivity. Qed.

(** * The incident check *)

(** [checkRouteForIncidents] keeps, in order, the incidents near the route. *)
Lemma checkRouteForIncidents_foldl routeCoordinates (t : R) incidents : forall nearby,
  foldl
    (fun nearbyIncidents incident =>
       if nearRoute routeCoordinates incident t
       then nearbyIncidents ++ [incident]
       else nearbyIncidents)
    nearby incidents
  = nearby ++ filter (fun incident => withinRadius routeCoordinates incident t) incidents.
Proof.
  induction incidents as [|incident rest IH]; intros nearby; cbn [foldl].
  - rewrite filter_nil, app_nil_r. reflexivity.
  - rewrite IH, filter_cons.
    destruct (nearRoute routeCoordinates incident t) eqn:Hnear.
    + apply nearRoute_withinRadius in Hnear. rewrite decide_True by exact Hnear.
      rewrite <- app_assoc. reflexivity.
    + rewrite decide_False; [reflexivity|].
      intros Hw. apply nearRoute_withinRadius in Hw. congruence.
Qed.

(** C9, as the code has it.  [checkRouteForIncidents] selects, in their
    order, exactly the incidents with a point of the route within the
    threshold, 400 m when none is passed, whatever their credibility. *)
Theorem checkRouteForIncidents_selects routeCoordinates incidents thresholdMeters :
  checkRouteForIncidents routeCoordinates incidents thresholdMeters
  = filter (fun incident =>
              withinRadius routeCoordinates incident (default 400 thresholdMeters))
           incidents.
Proof. unfold checkRouteForIncidents. apply checkRouteForIncidents_foldl. Qed.

(** C9, as the specification has it, fails: on the sample route the check
    selects a low-credibility incident at 0 m and leaves out a
    high-credibility one at 500 m. *)
Lemma checkRouteForIncidents_not_avoidanceTriggers :
  checkRouteForIncidents Example.route [Example.pothole; Example.hazard 500] None
  = [Example.pothole]
  /\ avoidanceTriggers Example.route [Example.pothole; Example.hazard 500]
     = [Example.hazard 500]
  /\ checkRouteForIncidents Example.route [Example.pothole; Example.hazard 500] None
     <> avoidanceTriggers Example.route [Example.pothole; Example.hazard 500].
Proof.
  assert (Hcode :
    checkRouteForIncidents Example.route [Example.pothole; Example.hazard 500] None
    = [Example.pothole]).
  { unfold checkRouteForIncidents. rewrite checkRouteForIncidents_foldl.
    rewrite !filter_cons, filter_nil. simpl default.
    rewrite decide_True by solve_near.
    rewrite decide_False by solve_far. reflexivity. }
  assert (Hspec :
    avoidanceTriggers Example.route [Example.pothole; Example.hazard 500]
    = [Example.hazard 500]).
  { unfold avoidanceTriggers. rewrite !filter_cons, filter_nil.
    rewrite decide_False by (intros [_ Hc]; discriminate Hc).
    rewrite decide_True; [reflexivity|].
    split; [solve_near | reflexivity]. }
  split; [exact Hcode | split; [exact Hspec|]].
  rewrite Hcode, Hspec. intros Heq.
  apply (f_equal (fmap Incident.credibility)) in Heq. simpl in Heq.
  discriminate Heq.
Qed.

(** * The two haversine distances *)

(** C10. The exported distance of the GPS utilities and the private one
    of the routing service are the same function. *)
Theorem calculateDistance_implementations_agree lat1 lng1 lat2 lng2 :
  GpsUtils.calculateDistance lat1 lng1 lat2 lng2
  = Routing.calculateDistance lat1 lng1 lat2 lng2.
Proof. reflexivity. Qed.

(** * The GPS utilities *)

(** ** The angle [Math.atan2] gives *)

Lemma atan2_range y x : - PI < Math.atan2 y x <= PI.
Proof.
  unfold Math.atan2. pose proof PI_RGT_0 as Hpi.
  pose proof (atan_bound (y / x)) as [Hlo Hhi].
  destruct (Rlt_dec 0 x) as [Hx | Hx]; [lra|].
  destruct (Rlt_dec x 0) as [Hx' | Hx'].
  - destruct (Rle_dec 0 y) as [Hy | Hy].
    + assert (y / x <= 0).
      { pose proof (Rinv_lt_0_compat x Hx'). unfold Rdiv. nra. }
      assert (atan (y / x) <= 0).
      { rewrite <- atan_0. destruct H as [H | ->]; [|lra].
        apply Rlt_le, atan_increasing, H. }
      lra.
    + assert (0 < y / x).
      { pose proof (Rinv_lt_0_compat x Hx'). unfold Rdiv. nra. }
      assert (0 < atan (y / x)) by (rewrite <- atan_0; apply atan_increasing, H).
      lra.
  - destruct (Rlt_dec 0 y); [lra|]. destruct (Rlt_dec y 0); lra.
Qed.

(** In the first quadrant the angle is between 0 and a right angle. *)
Lemma atan2_first_quadrant y x :
  0 <= y -> 0 <= x -> 0 <= Math.atan2 y x <= PI / 2.
Proof.
  intros Hy Hx. unfold Math.atan2. pose proof PI_RGT_0 as Hpi.
  destruct (Rlt_dec 0 x) as [Hx' | Hx'].
  - pose proof (atan_bound (y / x)) as [_ Hhi]. split; [|lra].
    destruct Hy as [Hy | <-].
    + rewrite <- atan_0. apply Rlt_le, atan_increasing.
      apply Rdiv_lt_0_compat; assumption.
    + unfold Rdiv. rewrite Rmult_0_l, atan_0. lra.
  - destruct (Rlt_dec x 0); [lra|].
    destruct (Rlt_dec 0 y); [lra|]. destruct (Rlt_dec y 0); lra.
Qed.

Lemma atan2_zero_pos x : 0 < x -> Math.atan2 0 x = 0.
Proof.
  intros Hx. rewrite atan2_pos_x by exact Hx.
  unfold Rdiv. rewrite Rmult_0_l. apply atan_0.
Qed.

Lemma atan2_zero_neg x : x < 0 -> Math.atan2 0 x = PI.
Proof.
  intros Hx. unfold Math.atan2.
  destruct (Rlt_dec 0 x); [lra|]. destruct (Rlt_dec x 0); [|lra].
  destruct (Rle_dec 0 0); [|lra].
  unfold Rdiv. rewrite Rmult_0_l, atan_0. lra.
Qed.

Lemma atan2_pos_zero y : 0 < y -> Math.atan2 y 0 = PI / 2.
Proof.
  intros Hy. unfold Math.atan2.
  destruct (Rlt_dec 0 0); [lra|]. destruct (Rlt_dec 0 0); [lra|].
  destruct (Rlt_dec 0 y); [reflexivity | lra].
Qed.

Lemma atan2_neg_zero y : y < 0 -> Math.atan2 y 0 = - (PI / 2).
Proof.
  intros Hy. unfold Math.atan2.
  destruct (Rlt_dec 0 0); [lra|]. destruct (Rlt_dec 0 0); [lra|].
  destruct (Rlt_dec 0 y); [lra|]. destruct (Rlt_dec y 0); [reflexivity | lra].
Qed.

(** ** The haversine distance *)

(** X1. The distance from A to B is the distance from B to A. *)
Theorem calculateDistance_symmetric lat1 lng1 lat2 lng2 :
  GpsUtils.calculateDistance lat1 lng1 lat2 lng2
  = GpsUtils.calculateDistance lat2 lng2 lat1 lng1.
Proof.
  unfold GpsUtils.calculateDistance. cbv zeta.
  replace ((lat1 - lat2) * PI / 180 / 2) with (- ((lat2 - lat1) * PI / 180 / 2)) by lra.
  replace ((lng1 - lng2) * PI / 180 / 2) with (- ((lng2 - lng1) * PI / 180 / 2)) by lra.
  rewrite !sin_neg.
  set (s1 := sin ((lat2 - lat1) * PI / 180 / 2)).
  set (s2 := sin ((lng2 - lng1) * PI / 180 / 2)).
  set (c1 := cos (lat1 * PI / 180)). set (c2 := cos (lat2 * PI / 180)).
  replace (- s1 * - s1 + c2 * c1 * - s2 * - s2) with (s1 * s1 + c1 * c2 * s2 * s2) by ring.
  reflexivity.
Qed.


(** ** The remainder and the bearing *)

Lemma truncate_nonneg x : 0 <= x -> truncate x = Int_part x.
Proof. intros Hx. unfold truncate. destruct (Rle_dec 0 x); [reflexivity | lra]. Qed.

(** The remainder of a number that lies between two consecutive multiples
    of the divisor. *)
Lemma rem_between (v d : R) (k : Z) :
  0 < d -> (0 <= k)%Z -> IZR k * d <= v < (IZR k + 1) * d ->
  rem v d = v - d * IZR k.
Proof.
  intros Hd Hk [Hlo Hhi]. unfold rem.
  assert (Hq : IZR k <= v / d < IZR k + 1).
  { split.
    - apply Rmult_le_reg_r with d; [exact Hd|].
      unfold Rdiv. rewrite Rmult_assoc, Rinv_l by lra. lra.
    - apply Rmult_lt_reg_r with d; [exact Hd|].
      unfold Rdiv. rewrite Rmult_assoc, Rinv_l by lra. lra. }
  assert (0 <= v / d) by (pose proof (IZR_le 0 k Hk); lra).
  rewrite truncate_nonneg by assumption.
  rewrite <- (Int_part_spec (v / d) k) by lra. reflexivity.
Qed.

Lemma rem_range (v d : R) : 0 <= v -> 0 < d -> 0 <= rem v d < d.
Proof.
  intros Hv Hd. unfold rem.
  assert (Hq : 0 <= v / d).
  { unfold Rdiv. apply Rmult_le_pos; [exact Hv|].
    apply Rlt_le, Rinv_0_lt_compat, Hd. }
  rewrite truncate_nonneg by exact Hq.
  destruct (base_Int_part (v / d)) as [Hlo Hhi].
  assert (Hvd : v = d * (v / d)) by (field; lra).
  set (i := IZR (Int_part (v / d))) in *.
  set (q := v / d) in *. split; nra.
Qed.

Lemma calculateBearing_bounds lat1 lng1 lat2 lng2 :
  0 <= GpsUtils.calculateBearing lat1 lng1 lat2 lng2 < 360.
Proof.
  unfold GpsUtils.calculateBearing. cbv zeta.
  apply rem_range; [|lra].
  match goal with
  | |- context [Math.atan2 ?y ?x] => pose proof (atan2_range y x) as [Hlo _];
                                     set (theta := Math.atan2 y x) in *
  end.
  pose proof PI_RGT_0 as Hpi.
  assert (- 180 < theta * 180 / PI); [|lra].
  apply Rmult_lt_reg_r with PI; [exact Hpi|].
  unfold Rdiv. rewrite Rmult_assoc, Rinv_l by lra. lra.
Qed.

(** X3. A bearing is at least 0 and less than 360 degrees. *)
Theorem calculateBearing_range lat1 lng1 lat2 lng2 :
  0 <= GpsUtils.calculateBearing lat1 lng1 lat2 lng2 < 360.
Proof. apply calculateBearing_bounds. Qed.

Lemma bearing_of_angle (theta : R) (k : Z) (degrees : R) :
  (0 <= k)%Z -> theta * 180 = degrees * PI ->
  IZR k * 360 <= degrees + 360 < (IZR k + 1) * 360 ->
  rem (theta * 180 / PI + 360) 360 = degrees + 360 - 360 * IZR k.
Proof.
  intros Hk Htheta Hrange. pose proof PI_RGT_0 as Hpi.
  assert (Hdeg : theta * 180 / PI = degrees).
  { rewrite Htheta. field. lra. }
  rewrite Hdeg. apply rem_between; [lra | exact Hk | exact Hrange].
Qed.

(** X4. The bearings the documentation names.  Between two points of one
    meridian the bearing is 0 northwards and 180 southwards; between two
    points of the equator it is 90 eastwards and 270 westwards. *)
Theorem calculateBearing_cardinal :
  (forall lat1 lat2 lng, lat1 < lat2 -> lat2 - lat1 < 180 ->
     GpsUtils.calculateBearing lat1 lng lat2 lng = 0)
  /\ (forall lat1 lat2 lng, lat2 < lat1 -> lat1 - lat2 < 180 ->
        GpsUtils.calculateBearing lat1 lng lat2 lng = 180)
  /\ (forall lng1 lng2, lng1 < lng2 -> lng2 - lng1 < 180 ->
        GpsUtils.calculateBearing 0 lng1 0 lng2 = 90)
  /\ (forall lng1 lng2, lng2 < lng1 -> lng1 - lng2 < 180 ->
        GpsUtils.calculateBearing 0 lng1 0 lng2 = 270).
Proof.
  pose proof PI_RGT_0 as Hpi.
  assert (Hmeridian : forall lat1 lat2 lng,
    GpsUtils.calculateBearing lat1 lng lat2 lng
    = rem (Math.atan2 0 (sin ((lat2 - lat1) * PI / 180)) * 180 / PI + 360) 360).
  { intros lat1 lat2 lng. unfold GpsUtils.calculateBearing. cbv zeta.
    replace ((lng - lng) * PI / 180) with 0 by lra. rewrite sin_0, cos_0.
    replace ((lat2 - lat1) * PI / 180) with (lat2 * PI / 180 - lat1 * PI / 180) by lra.
    set (a := lat1 * PI / 180). set (b := lat2 * PI / 180).
    replace (0 * cos b) with 0 by ring.
    replace (cos a * sin b - sin a * cos b * 1) with (sin (b - a))
      by (rewrite sin_minus; ring).
    reflexivity. }
  assert (Hequator : forall lng1 lng2,
    GpsUtils.calculateBearing 0 lng1 0 lng2
    = rem (Math.atan2 (sin ((lng2 - lng1) * PI / 180)) 0 * 180 / PI + 360) 360).
  { intros lng1 lng2. unfold GpsUtils.calculateBearing. cbv zeta.
    replace (0 * PI / 180) with 0 by lra. rewrite sin_0, cos_0.
    set (l := (lng2 - lng1) * PI / 180).
    replace (sin l * 1) with (sin l) by ring.
    replace (1 * 0 - 0 * 1 * cos l) with 0 by ring.
    reflexivity. }
  repeat split.
  - intros lat1 lat2 lng Hlt Hfar. rewrite Hmeridian, atan2_zero_pos.
    + rewrite (bearing_of_angle 0 1 0); lra || lia.
    + apply sin_gt_0; nra.
  - intros lat1 lat2 lng Hlt Hfar. rewrite Hmeridian, atan2_zero_neg.
    + rewrite (bearing_of_angle PI 1 180); lra || lia.
    + apply sin_lt_0_var; nra.
  - intros lng1 lng2 Hlt Hfar. rewrite Hequator, atan2_pos_zero.
    + rewrite (bearing_of_angle (PI / 2) 1 90); lra || lia.
    + apply sin_gt_0; nra.
  - intros lng1 lng2 Hlt Hfar. rewrite Hequator, atan2_neg_zero.
    + rewrite (bearing_of_angle (- (PI / 2)) 0 (- 90)); lra || lia.
    + apply sin_lt_0_var; nra.
Qed.

Lemma calculateBearing_cardinal_witness :
  GpsUtils.calculateBearing 40 (-74) 41 (-74) = 0
  /\ GpsUtils.calculateBearing 41 (-74) 40 (-74) = 180
  /\ GpsUtils.calculateBearing 0 10 0 11 = 90
  /\ GpsUtils.calculateBearing 0 11 0 10 = 270.
Proof.
  destruct calculateBearing_cardinal as (Hnorth & Hsouth & Heast & Hwest).
  split; [|split; [|split]].
  - apply Hnorth; lra.
  - apply Hsouth; lra.
  - apply Heast; lra.
  - apply Hwest; lra.
Defined.

(** ** The cardinal direction *)

Lemma round_sector (bearing : R) (k : Z) :
  45 * IZR k - 22.5 <= bearing < 45 * IZR k + 22.5 ->
  Math.round (bearing / 45) = k.
Proof.
  intros [Hlo Hhi]. unfold Math.round. symmetry. apply Int_part_spec. lra.
Qed.

(** The sector a bearing falls in. *)
Lemma sector_of_bearing (bearing : R) :
  let k := Math.round (bearing / 45) in
  45 * IZR k - 22.5 <= bearing < 45 * IZR k + 22.5.
Proof.
  intros k. subst k. unfold Math.round.
  destruct (base_Int_part (bearing / 45 + 0.5)) as [Hlo Hhi]. lra.
Qed.

Lemma getCardinalDirection_sector (bearing : R) (k : Z) :
  (0 <= k <= 8)%Z ->
  45 * IZR k - 22.5 <= bearing < 45 * IZR k + 22.5 ->
  GpsUtils.getCardinalDirection bearing
  = ["N"; "NE"; "E"; "SE"; "S"; "SW"; "W"; "NW"; "N"] !! Z.to_nat k.
Proof.
  intros Hk Hb. unfold GpsUtils.getCardinalDirection. cbv zeta.
  rewrite (round_sector _ _ Hb).
  assert (Hcases : (k = 0 \/ k = 1 \/ k = 2 \/ k = 3 \/ k = 4 \/ k = 5
                   \/ k = 6 \/ k = 7 \/ k = 8)%Z) by lia.
  repeat destruct Hcases as [-> | Hcases]; try subst k; reflexivity.
Qed.

(** X5. The compass is cut into eight sectors of 45 degrees centred on
    the multiples of 45: a bearing within 22.5 degrees of [45 * k], the
    upper bound left out, gets the [k]-th direction, and the last half
    sector before 360 is north again. *)
Theorem getCardinalDirection_sectors (bearing : R) (k : Z) :
  (0 <= k <= 8)%Z ->
  45 * IZR k - 22.5 <= bearing < 45 * IZR k + 22.5 ->
  GpsUtils.getCardinalDirection bearing
  = ["N"; "NE"; "E"; "SE"; "S"; "SW"; "W"; "NW"; "N"] !! Z.to_nat k.
Proof. apply getCardinalDirection_sector. Qed.

Lemma getCardinalDirection_sectors_witness :
  GpsUtils.getCardinalDirection 100 = Some "E"
  /\ GpsUtils.getCardinalDirection 337.5 = Some "N"
  /\ GpsUtils.getCardinalDirection 22.5 = Some "NE".
Proof.
  split; [|split].
  - apply (getCardinalDirection_sectors 100 2); [lia | lra].
  - apply (getCardinalDirection_sectors 337.5 8); [lia | lra].
  - apply (getCardinalDirection_sectors 22.5 1); [lia | lra].
Defined.

(** X6. The direction of a computed bearing is always defined. *)
Theorem getCardinalDirection_of_bearing lat1 lng1 lat2 lng2 :
  exists direction,
    GpsUtils.getCardinalDirection (GpsUtils.calculateBearing lat1 lng1 lat2 lng2)
    = Some direction
    /\ direction ∈ ["N"; "NE"; "E"; "SE"; "S"; "SW"; "W"; "NW"].
Proof.
  pose proof (calculateBearing_bounds lat1 lng1 lat2 lng2) as Hrange.
  set (bearing := GpsUtils.calculateBearing lat1 lng1 lat2 lng2) in *.
  pose proof (sector_of_bearing bearing) as Hsector. cbv zeta in Hsector.
  set (k := Math.round (bearing / 45)) in *.
  assert (Hk : (0 <= k <= 8)%Z).
  { split.
    - apply le_IZR. apply Rnot_lt_le. intros Hneg.
      assert (IZR k <= -1) by (apply (IZR_le k (-1)); apply lt_IZR in Hneg; lia).
      lra.
    - apply le_IZR. apply Rnot_lt_le. intros Hbig.
      assert (9 <= IZR k) by (apply (IZR_le 9 k); apply lt_IZR in Hbig; lia).
      lra. }
  rewrite (getCardinalDirection_sector bearing k Hk Hsector).
  assert (Hcases : (k = 0 \/ k = 1 \/ k = 2 \/ k = 3 \/ k = 4 \/ k = 5
                   \/ k = 6 \/ k = 7 \/ k = 8)%Z) by lia.
  clearbody k. clear Hsector Hk.
  repeat destruct Hcases as [-> | Hcases]; try subst k;
    eexists; (split; [reflexivity | set_solver]).
Qed.

(** X7. A negative bearing more than 22.5 degrees below 0 has no
    direction: the remainder keeps the sign of the rounded quotient, and
    the array has no negative index. *)
Theorem getCardinalDirection_negative (bearing : R) :
  - 337.5 <= bearing < - 22.5 -> GpsUtils.getCardinalDirection bearing = None.
Proof.
  intros Hb. unfold GpsUtils.getCardinalDirection. cbv zeta.
  pose proof (sector_of_bearing bearing) as Hsector. cbv zeta in Hsector.
  set (k := Math.round (bearing / 45)) in *.
  assert (Hk : (-7 <= k <= -1)%Z).
  { split.
    - apply le_IZR. apply Rnot_lt_le. intros Hlow.
      assert (IZR k <= -8) by (apply (IZR_le k (-8)); apply lt_IZR in Hlow; lia).
      lra.
    - apply le_IZR. apply Rnot_lt_le. intros Hbig.
      assert (0 <= IZR k) by (apply (IZR_le 0 k); apply lt_IZR in Hbig; lia).
      lra. }
  assert (Hcases : (k = -7 \/ k = -6 \/ k = -5 \/ k = -4 \/ k = -3 \/ k = -2
                   \/ k = -1)%Z) by lia.
  clearbody k.
  repeat destruct Hcases as [-> | Hcases]; try subst k; reflexivity.
Qed.

Lemma getCardinalDirection_negative_witness :
  GpsUtils.getCardinalDirection (- 90) = None.
Proof. apply getCardinalDirection_negative. lra. Defined.

(** ** The closest point of a route *)

Lemma calculateDistance_nonneg lat1 lng1 lat2 lng2 :
  0 <= GpsUtils.calculateDistance lat1 lng1 lat2 lng2.
Proof.
  unfold GpsUtils.calculateDistance. cbv zeta.
  match goal with
  | |- context [Math.atan2 (sqrt ?a) (sqrt ?b)] =>
      pose proof (atan2_first_quadrant (sqrt a) (sqrt b) (sqrt_pos a) (sqrt_pos b))
  end.
  lra.
Qed.

Lemma closestPoint_snoc location (l : list (R * R)) (p : R * R) :
  GpsUtils.closestPoint location (l ++ [p])
  = let '(closestIndex, minDistance) := GpsUtils.closestPoint location l in
    if xltb (distanceTo location p) minDistance
    then (length l, Finite (distanceTo location p))
    else (closestIndex, minDistance).
Proof.
  unfold GpsUtils.closestPoint. rewrite imap_app, foldl_app. simpl.
  destruct (foldl _ _ _) as [closestIndex minDistance].
  destruct p as [lat lng]. rewrite Nat.add_0_r. reflexivity.
Qed.

(** The loop ends on the first point at the least distance. *)
Lemma closestPoint_cases location (routeCoordinates : list (R * R)) :
  (routeCoordinates = [] /\ GpsUtils.closestPoint location routeCoordinates = (0%nat, Infinity))
  \/ exists c p,
       GpsUtils.closestPoint location routeCoordinates = (c, Finite (distanceTo location p))
       /\ routeCoordinates !! c = Some p
       /\ closestAt location routeCoordinates c.
Proof.
  induction routeCoordinates as [|p l IH] using rev_ind.
  - left. split; reflexivity.
  - right. rewrite closestPoint_snoc.
    destruct IH as [[-> ->] | (c & q & -> & Hq & (q' & Hq' & Hlow & Hstrict))].
    + simpl. exists 0%nat, p. split; [reflexivity|]. split; [reflexivity|].
      exists p. split; [reflexivity|]. split.
      * intros j r Hr. apply list_lookup_singleton_Some in Hr as [_ <-]. lra.
      * intros j r Hj. lia.
    + assert (q' = q) by congruence. subst q'. simpl.
      case_bool_decide as Hlt.
      * exists (length l), p. split; [reflexivity|].
        assert (Hp : (l ++ [p]) !! length l = Some p).
        { rewrite lookup_app_r by lia. rewrite Nat.sub_diag. reflexivity. }
        split; [exact Hp|]. exists p. split; [exact Hp|]. split.
        -- intros j r Hr. apply lookup_app_Some in Hr as [Hr | [_ Hr]].
           ++ specialize (Hlow j r Hr). lra.
           ++ apply list_lookup_singleton_Some in Hr as [_ <-]. lra.
        -- intros j r Hj Hr. rewrite lookup_app_l in Hr by exact Hj.
           specialize (Hlow j r Hr). lra.
      * exists c, q.
        assert (Hc : (c < length l)%nat) by (eapply lookup_lt_Some; exact Hq).
        assert (Hq2 : (l ++ [p]) !! c = Some q) by (rewrite lookup_app_l; assumption).
        split; [reflexivity|]. split; [exact Hq2|]. exists q. split; [exact Hq2|]. split.
        -- intros j r Hr. apply lookup_app_Some in Hr as [Hr | [_ Hr]].
           ++ apply (Hlow j r Hr).
           ++ apply list_lookup_singleton_Some in Hr as [_ <-]. lra.
        -- intros j r Hj Hr. apply (Hstrict j r Hj).
           rewrite lookup_app_l in Hr; [exact Hr | lia].
Qed.

Lemma closestAt_unique location routeCoordinates c c' :
  closestAt location routeCoordinates c -> closestAt location routeCoordinates c' -> c = c'.
Proof.
  intros (p & Hp & Hlow & Hstrict) (p' & Hp' & Hlow' & Hstrict').
  destruct (Nat.lt_trichotomy c c') as [Hlt | [Heq | Hgt]]; [|exact Heq|].
  - specialize (Hstrict' c p Hlt Hp). specialize (Hlow c' p' Hp'). lra.
  - specialize (Hstrict c' p' Hgt Hp'). specialize (Hlow' c p Hp). lra.
Qed.



(** ** The next waypoint *)

Lemma findNextWaypoint_nonempty location routeCoordinates lookAheadMeters :
  routeCoordinates <> [] ->
  exists c waypoint,
    closestAt location routeCoordinates c
    /\ routeCoordinates !! Nat.min (c + 5) (length routeCoordinates - 1) = Some waypoint
    /\ GpsUtils.findNextWaypoint location routeCoordinates lookAheadMeters
       = Return (Some
           {| GpsUtils.NextWaypoint.waypoint := waypoint;
              GpsUtils.NextWaypoint.index := Nat.min (c + 5) (length routeCoordinates - 1);
              GpsUtils.NextWaypoint.distance := distanceTo location waypoint |}).
Proof.
  intros Hne. destruct (closestPoint_cases location routeCoordinates)
    as [[-> _] | (c & p & Heq & Hp & Hc)]; [contradiction|].
  assert (Hlen : (0 < length routeCoordinates)%nat) by (apply lookup_lt_Some in Hp; lia).
  destruct (lookup_lt_is_Some_2 routeCoordinates
              (Nat.min (c + 5) (length routeCoordinates - 1))) as [waypoint Hw]; [lia|].
  exists c, waypoint. split; [exact Hc|]. split; [exact Hw|].
  unfold GpsUtils.findNextWaypoint. cbv zeta.
  rewrite bool_decide_eq_false_2 by lia. rewrite Heq, Hw. reflexivity.
Qed.

(** X8. On an empty route [findNextWaypoint] answers [null].  On any
    other route it answers, without an error and whatever look-ahead
    distance is passed, the point five places after the first point
    closest to the location, or the last point of the route when fewer
    than five follow, with its index and its distance to the location. *)
Theorem findNextWaypoint_spec location routeCoordinates lookAheadMeters :
  (routeCoordinates = [] ->
   GpsUtils.findNextWaypoint location routeCoordinates lookAheadMeters = Return None)
  /\ (routeCoordinates <> [] ->
      exists c waypoint,
        closestAt location routeCoordinates c
        /\ routeCoordinates !! Nat.min (c + 5) (length routeCoordinates - 1) = Some waypoint
        /\ GpsUtils.findNextWaypoint location routeCoordinates lookAheadMeters
           = Return (Some
               {| GpsUtils.NextWaypoint.waypoint := waypoint;
                  GpsUtils.NextWaypoint.index :=
                    Nat.min (c + 5) (length routeCoordinates - 1);
                  GpsUtils.NextWaypoint.distance := distanceTo location waypoint |})).
Proof.
  split.
  - intros ->. reflexivity.
  - apply findNextWaypoint_nonempty.
Qed.

Lemma findNextWaypoint_spec_witness :
  exists c waypoint,
    closestAt Example.position Example.track c
    /\ Example.track !! Nat.min (c + 5) (length Example.track - 1) = Some waypoint
    /\ GpsUtils.findNextWaypoint Example.position Example.track (Some 30)
       = Return (Some
           {| GpsUtils.NextWaypoint.waypoint := waypoint;
              GpsUtils.NextWaypoint.index := Nat.min (c + 5) (length Example.track - 1);
              GpsUtils.NextWaypoint.distance := distanceTo Example.position waypoint |}).
Proof.
  apply (findNextWaypoint_spec Example.position Example.track (Some 30)).
  discriminate.
Defined.

Lemma distanceTo_origin m :
  0 <= m -> m <= 19000000 ->
  distanceTo Example.position (0, Example.metersEast m) = m.
Proof. intros H0 H1. apply (calculateDistance_origin m H0 H1). Qed.

Lemma track_closestAt : closestAt Example.position Example.track 0.
Proof.
  exists (0, Example.metersEast 0). split; [reflexivity|]. split.
  - intros j q _. rewrite distanceTo_origin by lra. apply calculateDistance_nonneg.
  - intros j q Hj. lia.
Qed.

(** From the start of the sample track the next waypoint is its sixth
    point, 500 m ahead. *)
Example findNextWaypoint_track :
  GpsUtils.findNextWaypoint Example.position Example.track None
  = Return (Some
      {| GpsUtils.NextWaypoint.waypoint := (0, Example.metersEast 500);
         GpsUtils.NextWaypoint.index := 5;
         GpsUtils.NextWaypoint.distance := 500 |}).
Proof.
  destruct (findNextWaypoint_nonempty Example.position Example.track None)
    as (c & waypoint & Hc & Hw & ->); [discriminate|].
  rewrite (closestAt_unique _ _ _ _ Hc track_closestAt) in *.
  simpl in Hw. injection Hw as <-.
  rewrite distanceTo_origin by lra. reflexivity.
Qed.

(** ** The remaining distance *)







(** ** The proximity check *)

Section Proximity.

Variable location : GpsUtils.Coordinate.t.
Variables highRadius mediumRadius lowRadius : R.

Abbreviation step := (GpsUtils.proximityLoop location highRadius mediumRadius lowRadius).
Abbreviation dist := (distanceToIncident location).

Lemma proximityLoop_inRange locals incident :
  GpsUtils.ProximityResult.incidentsInRange (step locals incident)
  = GpsUtils.ProximityResult.incidentsInRange locals
    ++ (if bool_decide (dist incident < lowRadius) then [(incident, dist incident)] else []).
Proof.
  unfold GpsUtils.proximityLoop. cbv zeta. fold (dist incident).
  destruct (xltb _ _); simpl; case_bool_decide; simpl;
    rewrite ?app_nil_r; reflexivity.
Qed.

Lemma proximityLoop_severity locals incident :
  GpsUtils.ProximityResult.severity (step locals incident)
  = let severity := GpsUtils.ProximityResult.severity locals in
    if bool_decide (dist incident < highRadius)
       && bool_decide (GpsUtils.AnyIncident.credibility incident = "high")
    then GpsUtils.Severity.high
    else if bool_decide (dist incident < mediumRadius)
            && negb (bool_decide (severity = GpsUtils.Severity.high))
    then
      if bool_decide (GpsUtils.AnyIncident.credibility incident = "high")
         || bool_decide (GpsUtils.AnyIncident.credibility incident = "medium")
      then GpsUtils.Severity.medium
      else severity
    else if bool_decide (dist incident < lowRadius)
            && bool_decide (severity = GpsUtils.Severity.safe)
    then GpsUtils.Severity.low
    else severity.
Proof.
  unfold GpsUtils.proximityLoop. cbv zeta. fold (dist incident).
  destruct (xltb _ _); reflexivity.
Qed.


Lemma proximity_inRange incidents : forall locals,
  GpsUtils.ProximityResult.incidentsInRange (foldl step locals incidents)
  = GpsUtils.ProximityResult.incidentsInRange locals
    ++ ((fun incident => (incident, dist incident))
          <$> filter (fun incident => dist incident < lowRadius) incidents).
Proof.
  induction incidents as [|incident rest IH]; intros locals; cbn [foldl].
  - rewrite filter_nil, app_nil_r. reflexivity.
  - rewrite IH, proximityLoop_inRange, filter_cons.
    case_bool_decide as Hd.
    + rewrite decide_True by exact Hd. rewrite fmap_cons, <- app_assoc. reflexivity.
    + rewrite decide_False by exact Hd. rewrite app_nil_r. reflexivity.
Qed.

Lemma proximityLoop_high locals incident :
  GpsUtils.ProximityResult.severity (step locals incident) = GpsUtils.Severity.high
  <-> GpsUtils.ProximityResult.severity locals = GpsUtils.Severity.high
      \/ (dist incident < highRadius
          /\ GpsUtils.AnyIncident.credibility incident = "high").
Proof.
  rewrite proximityLoop_severity. cbv zeta.
  destruct (GpsUtils.ProximityResult.severity locals);
    repeat case_bool_decide; simpl; naive_solver.
Qed.

Lemma proximity_high incidents : forall locals,
  GpsUtils.ProximityResult.severity (foldl step locals incidents) = GpsUtils.Severity.high
  <-> GpsUtils.ProximityResult.severity locals = GpsUtils.Severity.high
      \/ exists incident, incident ∈ incidents
           /\ dist incident < highRadius
           /\ GpsUtils.AnyIncident.credibility incident = "high".
Proof.
  induction incidents as [|incident rest IH]; intros locals; cbn [foldl].
  - split; [tauto|]. intros [H | (i & Hi & _)]; [exact H|].
    apply elem_of_nil in Hi. destruct Hi.
  - rewrite IH, proximityLoop_high. split.
    + intros [[H | H] | (i & Hi & H)].
      * left. exact H.
      * right. exists incident. split; [left | exact H].
      * right. exists i. split; [right; exact Hi | exact H].
    + intros [H | (i & Hi & H)]; [tauto|].
      apply elem_of_cons in Hi as [-> | Hi]; [tauto|].
      right. exists i. tauto.
Qed.

Lemma proximityLoop_rank locals incident :
  (severityRank (GpsUtils.ProximityResult.severity locals)
   <= severityRank (GpsUtils.ProximityResult.severity (step locals incident)))%nat.
Proof.
  rewrite proximityLoop_severity. cbv zeta.
  destruct (GpsUtils.ProximityResult.severity locals);
    repeat case_bool_decide; simpl; try lia; congruence.
Qed.

Lemma proximity_rank incidents : forall locals,
  (severityRank (GpsUtils.ProximityResult.severity locals)
   <= severityRank (GpsUtils.ProximityResult.severity (foldl step locals incidents)))%nat.
Proof.
  induction incidents as [|incident rest IH]; intros locals; cbn [foldl]; [lia|].
  etransitivity; [apply (proximityLoop_rank locals incident) | apply IH].
Qed.

(** Incidents that are neither of high nor of medium credibility and
    within the medium radius leave a safe severity safe. *)
Lemma proximity_low_credibility_near incidents : forall locals,
  GpsUtils.ProximityResult.severity locals = GpsUtils.Severity.safe ->
  (forall incident, incident ∈ incidents ->
     GpsUtils.AnyIncident.credibility incident <> "high"
     /\ GpsUtils.AnyIncident.credibility incident <> "medium"
     /\ dist incident < mediumRadius) ->
  GpsUtils.ProximityResult.severity (foldl step locals incidents) = GpsUtils.Severity.safe.
Proof.
  induction incidents as [|incident rest IH]; intros locals Hsafe Hall; cbn [foldl];
    [exact Hsafe|].
  apply IH.
  - destruct (Hall incident) as (Hh & Hm & Hd); [left|].
    rewrite proximityLoop_severity, Hsafe. cbv zeta.
    repeat case_bool_decide; simpl; congruence.
  - intros i Hi. apply Hall. right. exact Hi.
Qed.

(** Incidents outside the three radii change neither the severity nor
    the list of incidents in range. *)
Lemma proximity_clear incidents : forall locals,
  (forall incident, incident ∈ incidents ->
     highRadius <= dist incident /\ mediumRadius <= dist incident
     /\ lowRadius <= dist incident) ->
  GpsUtils.ProximityResult.severity (foldl step locals incidents)
  = GpsUtils.ProximityResult.severity locals
  /\ GpsUtils.ProximityResult.incidentsInRange (foldl step locals incidents)
     = GpsUtils.ProximityResult.incidentsInRange locals.
Proof.
  induction incidents as [|incident rest IH]; intros locals Hall; cbn [foldl];
    [split; reflexivity|].
  destruct (Hall incident) as (Hh & Hm & Hl); [left|].
  destruct (IH (step locals incident)) as [-> ->]; [intros i Hi; apply Hall; right; exact Hi|].
  rewrite proximityLoop_severity, proximityLoop_inRange. cbv zeta.
  rewrite !(bool_decide_eq_false_2 (dist incident < _)) by lra.
  simpl. rewrite app_nil_r. split; reflexivity.
Qed.

End Proximity.


(** X10. The incidents reported in range are, in their order and each
    with its distance, exactly those closer than the low radius, 500 m
    when none is passed. *)
Theorem checkProximity_inRange location incidents highRadius mediumRadius lowRadius :
  GpsUtils.ProximityResult.incidentsInRange
    (GpsUtils.checkProximityToIncidents location incidents
       highRadius mediumRadius lowRadius)
  = (fun incident => (incident, distanceToIncident location incident))
      <$> filter (fun incident =>
                    distanceToIncident location incident < default 500 lowRadius)
                 incidents.
Proof.
  unfold GpsUtils.checkProximityToIncidents. cbv zeta.
  rewrite proximity_inRange. reflexivity.
Qed.



(** X12. The severity is high exactly when some incident of credibility
    "high" is closer than the high radius, 100 m when none is passed. *)
Theorem checkProximity_high location incidents highRadius mediumRadius lowRadius :
  GpsUtils.ProximityResult.severity
    (GpsUtils.checkProximityToIncidents location incidents
       highRadius mediumRadius lowRadius)
  = GpsUtils.Severity.high
  <-> exists incident,
        incident ∈ incidents
        /\ distanceToIncident location incident < default 100 highRadius
        /\ GpsUtils.AnyIncident.credibility incident = "high".
Proof.
  unfold GpsUtils.checkProximityToIncidents. cbv zeta.
  rewrite proximity_high. simpl. split; [|tauto].
  intros [H | H]; [discriminate | exact H].
Qed.

Lemma sample_distanceToIncident m credibility :
  0 <= m -> m <= 19000000 ->
  distanceToIncident Example.position (Example.report m credibility) = m.
Proof. intros H0 H1. apply (calculateDistance_origin m H0 H1). Qed.

(** X13. An incident whose credibility is neither "high" nor "medium"
    does not raise the severity while it is inside the medium radius: with
    only such incidents the severity is safe.  Alone between the medium and
    the low radius, and outside the high radius, an incident of any
    credibility gives the severity low. *)
Theorem checkProximity_low_credibility location highRadius mediumRadius lowRadius :
  (forall incidents,
     (forall incident, incident ∈ incidents ->
        GpsUtils.AnyIncident.credibility incident <> "high"
        /\ GpsUtils.AnyIncident.credibility incident <> "medium"
        /\ distanceToIncident location incident < default 300 mediumRadius) ->
     GpsUtils.ProximityResult.severity
       (GpsUtils.checkProximityToIncidents location incidents
          highRadius mediumRadius lowRadius)
     = GpsUtils.Severity.safe)
  /\ (forall incident,
        default 100 highRadius <= distanceToIncident location incident ->
        default 300 mediumRadius <= distanceToIncident location incident ->
        distanceToIncident location incident < default 500 lowRadius ->
        GpsUtils.ProximityResult.severity
          (GpsUtils.checkProximityToIncidents location [incident]
             highRadius mediumRadius lowRadius)
        = GpsUtils.Severity.low).
Proof.
  split.
  - intros incidents Hall. unfold GpsUtils.checkProximityToIncidents. cbv zeta.
    apply proximity_low_credibility_near; [reflexivity | exact Hall].
  - intros incident Hh Hm Hl. unfold GpsUtils.checkProximityToIncidents.
    cbv zeta. cbn [foldl]. rewrite proximityLoop_severity. cbv zeta.
    rewrite (bool_decide_eq_false_2 (_ < default 100 highRadius)) by lra.
    rewrite (bool_decide_eq_false_2 (_ < default 300 mediumRadius)) by lra.
    rewrite (bool_decide_eq_true_2 (_ < default 500 lowRadius)) by lra.
    reflexivity.
Qed.

Lemma checkProximity_low_credibility_witness :
  GpsUtils.ProximityResult.severity
    (GpsUtils.checkProximityToIncidents Example.position
       [Example.report 50 "low"; Example.report 250 "low"] None None None)
  = GpsUtils.Severity.safe
  /\ GpsUtils.ProximityResult.severity
       (GpsUtils.checkProximityToIncidents Example.position
          [Example.report 400 "low"] None None None)
     = GpsUtils.Severity.low.
Proof.
  destruct (checkProximity_low_credibility Example.position None None None)
    as [Hnear Hring].
  split.
  - apply Hnear. intros incident Hin.
    apply elem_of_cons in Hin as [-> | Hin];
      [|apply list_elem_of_singleton in Hin; subst incident];
      (split; [discriminate|]; split; [discriminate|]);
      rewrite sample_distanceToIncident by lra; simpl; lra.
  - apply Hring; rewrite sample_distanceToIncident by lra; simpl; lra.
Defined.

(** X14. Checking more incidents never lowers the severity. *)
Theorem checkProximity_monotone location incidents more highRadius mediumRadius lowRadius :
  (severityRank
     (GpsUtils.ProximityResult.severity
        (GpsUtils.checkProximityToIncidents location incidents
           highRadius mediumRadius lowRadius))
   <= severityRank
        (GpsUtils.ProximityResult.severity
           (GpsUtils.checkProximityToIncidents location (incidents ++ more)
              highRadius mediumRadius lowRadius)))%nat.
Proof.
  unfold GpsUtils.checkProximityToIncidents. cbv zeta.
  rewrite foldl_app. apply proximity_rank.
Qed.

(** X15. Incidents that are not closer than any of the three radii are
    not reported: the severity is safe and no incident is in range. *)
Theorem checkProximity_clear location incidents highRadius mediumRadius lowRadius :
  (forall incident, incident ∈ incidents ->
     default 100 highRadius <= distanceToIncident location incident
     /\ default 300 mediumRadius <= distanceToIncident location incident
     /\ default 500 lowRadius <= distanceToIncident location incident) ->
  GpsUtils.ProximityResult.severity
    (GpsUtils.checkProximityToIncidents location incidents
       highRadius mediumRadius lowRadius)
  = GpsUtils.Severity.safe
  /\ GpsUtils.ProximityResult.incidentsInRange
       (GpsUtils.checkProximityToIncidents location incidents
          highRadius mediumRadius lowRadius)
     = [].
Proof.
  intros Hall. unfold GpsUtils.checkProximityToIncidents. cbv zeta.
  destruct (proximity_clear location _ _ _ incidents
              {| GpsUtils.ProximityResult.severity := GpsUtils.Severity.safe;
                 GpsUtils.ProximityResult.nearestIncident := None;
                 GpsUtils.ProximityResult.distance := Infinity;
                 GpsUtils.ProximityResult.incidentsInRange := [] |} Hall)
    as [-> ->].
  split; reflexivity.
Qed.

Lemma checkProximity_clear_witness :
  GpsUtils.ProximityResult.severity
    (GpsUtils.checkProximityToIncidents Example.position
       [Example.report 500 "high"; Example.report 900 "medium"] None None None)
  = GpsUtils.Severity.safe
  /\ GpsUtils.ProximityResult.incidentsInRange
       (GpsUtils.checkProximityToIncidents Example.position
          [Example.report 500 "high"; Example.report 900 "medium"] None None None)
     = [].
Proof.
  apply (checkProximity_clear Example.position
           [Example.report 500 "high"; Example.report 900 "medium"] None None None).
  intros incident Hin.
  apply elem_of_cons in Hin as [-> | Hin];
    [|apply list_elem_of_singleton in Hin; subst incident];
    rewrite sample_distanceToIncident by lra; simpl; lra.
Defined.

(** * The avoidance waypoints *)

Lemma avoidanceStrategies_app start end_ incident allWaypoints avoidDistance :
  avoidanceStrategies start end_ incident allWaypoints avoidDistance
  = allWaypoints ++ avoidanceStrategies start end_ incident [] avoidDistance.
Proof. unfold avoidanceStrategies. cbv zeta. rewrite <- !app_assoc. reflexivity. Qed.

Lemma avoidanceStrategies_length start end_ incident avoidDistance :
  length (avoidanceStrategies start end_ incident [] avoidDistance) = 4%nat.
Proof. reflexivity. Qed.

Lemma foldl_avoidanceStrategies start end_ incident distances : forall allWaypoints,
  foldl (avoidanceStrategies start end_ incident) allWaypoints distances
  = allWaypoints
    ++ (avoidDistance ← distances;
        avoidanceStrategies start end_ incident [] avoidDistance).
Proof.
  induction distances as [|a rest IH]; intros allWaypoints; cbn [foldl].
  - simpl. rewrite app_nil_r. reflexivity.
  - rewrite IH, avoidanceStrategies_app, <- app_assoc. reflexivity.
Qed.

Lemma segment_length_pos (x y : R) : sqrt (x * x + y * y) > 0 <-> x <> 0 \/ y <> 0.
Proof.
  split.
  - intros Hpos. destruct (Req_dec x 0) as [-> | Hx]; [|left; exact Hx].
    destruct (Req_dec y 0) as [-> | Hy]; [|right; exact Hy].
    replace (0 * 0 + 0 * 0) with 0 in Hpos by ring. rewrite sqrt_0 in Hpos. lra.
  - intros Hne. apply Rlt_gt, sqrt_lt_R0. nra.
Qed.

Lemma foldl_foldl_avoidanceStrategies start end_ distances incidentsToAvoid :
  forall allWaypoints,
  foldl (fun allWaypoints incident =>
           foldl (avoidanceStrategies start end_ incident) allWaypoints distances)
    allWaypoints incidentsToAvoid
  = allWaypoints
    ++ (incident ← incidentsToAvoid;
        avoidDistance ← distances;
        avoidanceStrategies start end_ incident [] avoidDistance).
Proof.
  induction incidentsToAvoid as [|incident rest IH]; intros allWaypoints; cbn [foldl].
  - simpl. rewrite app_nil_r. reflexivity.
  - rewrite IH, foldl_avoidanceStrategies, <- app_assoc. reflexivity.
Qed.

(** The waypoint lists are those of every incident, in order, at the
    three avoidance distances, unless start and end are the same point. *)
Lemma generateAvoidanceWaypoints_bind start end_ incidentsToAvoid :
  generateAvoidanceWaypoints start end_ incidentsToAvoid
  = if bool_decide (sqrt ((RoutePoint.lat end_ - RoutePoint.lat start)
                           * (RoutePoint.lat end_ - RoutePoint.lat start)
                          + (RoutePoint.lng end_ - RoutePoint.lng start)
                            * (RoutePoint.lng end_ - RoutePoint.lng start)) > 0)
    then incident ← incidentsToAvoid;
         avoidDistance ← [0.005; 0.010; 0.015];
         avoidanceStrategies start end_ incident [] avoidDistance
    else [].
Proof.
  unfold generateAvoidanceWaypoints. cbv zeta.
  case_bool_decide as Hempty.
  { apply length_zero_iff_nil in Hempty. subst. case_bool_decide; reflexivity. }
  clear Hempty. case_bool_decide as Hpos.
  - apply (foldl_foldl_avoidanceStrategies start end_ [0.005; 0.010; 0.015]
             incidentsToAvoid []).
  - induction incidentsToAvoid as [|incident rest IH]; [reflexivity | exact IH].
Qed.

(** X16. Unless start and end are the same point, twelve waypoint lists
    are made for every incident to avoid: four strategies at each of three
    distances.  When start and end are the same point none is made. *)
Theorem generateAvoidanceWaypoints_count start end_ incidentsToAvoid :
  (RoutePoint.lat start <> RoutePoint.lat end_
   \/ RoutePoint.lng start <> RoutePoint.lng end_ ->
   length (generateAvoidanceWaypoints start end_ incidentsToAvoid)
   = (12 * length incidentsToAvoid)%nat)
  /\ (RoutePoint.lat start = RoutePoint.lat end_ ->
      RoutePoint.lng start = RoutePoint.lng end_ ->
      generateAvoidanceWaypoints start end_ incidentsToAvoid = []).
Proof.
  rewrite generateAvoidanceWaypoints_bind. split.
  - intros Hne. rewrite bool_decide_eq_true_2 by (apply segment_length_pos; lra).
    induction incidentsToAvoid as [|incident rest IH]; [reflexivity|].
    cbn [mbind list_bind] in *. rewrite length_app, IH. simpl. lia.
  - intros Hlat Hlng. rewrite bool_decide_eq_false_2; [reflexivity|].
    rewrite segment_length_pos. lra.
Qed.

Lemma metersEast_pos m : 0 < m -> 0 < Example.metersEast m.
Proof.
  intros Hm. unfold Example.metersEast. pose proof PI_RGT_0.
  apply Rdiv_lt_0_compat; lra.
Qed.

Lemma generateAvoidanceWaypoints_count_witness :
  length (generateAvoidanceWaypoints Example.here Example.there
            [Example.fire; Example.protest])
  = 24%nat
  /\ generateAvoidanceWaypoints Example.here Example.here [Example.fire] = [].
Proof.
  split.
  - apply (generateAvoidanceWaypoints_count Example.here Example.there
             [Example.fire; Example.protest]).
    right. simpl. pose proof (metersEast_pos 1000). lra.
  - apply (generateAvoidanceWaypoints_count Example.here Example.here [Example.fire]);
      reflexivity.
Defined.

(** A vector turned by a right angle and scaled to length [a]. *)
Lemma perpendicular_offset (x y a : R) :
  sqrt (x * x + y * y) > 0 ->
  let len := sqrt (x * x + y * y) in
  (- y / len * a) * (- y / len * a) + (x / len * a) * (x / len * a) = a * a
  /\ (- y / len * a) * x + (x / len * a) * y = 0
  /\ (y / len * a) * (y / len * a) + (- x / len * a) * (- x / len * a) = a * a
  /\ (y / len * a) * x + (- x / len * a) * y = 0.
Proof.
  intros Hpos len.
  assert (Hsq : len * len = x * x + y * y).
  { apply sqrt_sqrt. nra. }
  assert (Hne : len <> 0) by (unfold len; lra).
  assert (Hunit : (x / len) * (x / len) + (y / len) * (y / len) = 1).
  { replace (x / len * (x / len) + y / len * (y / len))
      with ((x * x + y * y) / (len * len)) by (field; exact Hne).
    rewrite <- Hsq. unfold Rdiv. apply Rinv_r. intros Hzero.
    apply Rmult_integral in Hzero. tauto. }
  repeat split.
  - replace (- y / len * a * (- y / len * a) + x / len * a * (x / len * a))
      with ((x / len * (x / len) + y / len * (y / len)) * (a * a))
      by (field; exact Hne).
    rewrite Hunit. ring.
  - field. exact Hne.
  - replace (y / len * a * (y / len * a) + - x / len * a * (- x / len * a))
      with ((x / len * (x / len) + y / len * (y / len)) * (a * a))
      by (field; exact Hne).
    rewrite Hunit. ring.
  - field. exact Hne.
Qed.

(** X17. Every waypoint list made has one or two waypoints, and its last
    waypoint is set off from one of the incidents to avoid by exactly one
    of the three avoidance distances (0.005, 0.010 or 0.015 degree), at a
    right angle to the direction from start to end. *)
Theorem generateAvoidanceWaypoints_offsets start end_ incidentsToAvoid :
  Forall
    (fun waypoints =>
       exists incident avoidDistance target,
         incident ∈ incidentsToAvoid
         /\ avoidDistance ∈ [0.005; 0.010; 0.015]
         /\ (length waypoints = 1%nat \/ length waypoints = 2%nat)
         /\ last waypoints = Some target
         /\ (RoutePoint.lat target - Incident.lat incident)
            * (RoutePoint.lat target - Incident.lat incident)
            + (RoutePoint.lng target - Incident.lng incident)
              * (RoutePoint.lng target - Incident.lng incident)
            = avoidDistance * avoidDistance
         /\ (RoutePoint.lat target - Incident.lat incident)
            * (RoutePoint.lat end_ - RoutePoint.lat start)
            + (RoutePoint.lng target - Incident.lng incident)
              * (RoutePoint.lng end_ - RoutePoint.lng start)
            = 0)
    (generateAvoidanceWaypoints start end_ incidentsToAvoid).
Proof.
  rewrite generateAvoidanceWaypoints_bind.
  case_bool_decide as Hpos; [|constructor].
  apply Forall_forall. intros waypoints Hin.
  apply list_elem_of_bind in Hin as (incident & Hin & Hincident).
  apply list_elem_of_bind in Hin as (avoidDistance & Hin & Hdistance).
  destruct (perpendicular_offset _ _ avoidDistance Hpos) as (Hn1 & Hp1 & Hn2 & Hp2).
  cbv zeta in Hn1, Hp1, Hn2, Hp2.
  exists incident, avoidDistance.
  unfold avoidanceStrategies in Hin. cbv zeta in Hin. simpl app in Hin.
  set (dLat := RoutePoint.lat end_ - RoutePoint.lat start) in *.
  set (dLng := RoutePoint.lng end_ - RoutePoint.lng start) in *.
  set (len := sqrt (dLat * dLat + dLng * dLng)) in *.
  repeat (apply elem_of_cons in Hin as [-> | Hin]);
    [| | | | apply elem_of_nil in Hin; destruct Hin];
    eexists; (split; [exact Hincident|]); (split; [exact Hdistance|]);
    (split; [simpl; tauto|]); (split; [reflexivity|]); simpl; split.
  - rewrite <- Hn1. ring.
  - rewrite <- Hp1. ring.
  - rewrite <- Hn2. ring.
  - rewrite <- Hp2. ring.
  - rewrite <- Hn1. ring.
  - rewrite <- Hp1. ring.
  - rewrite <- Hn2. ring.
  - rewrite <- Hp2. ring.
Qed.

(** * The polyline decoder *)

Section Polyline.

Open Scope Z_scope.

Lemma wrap_small z : - 2 ^ 31 <= z < 2 ^ 31 -> Int32.wrap z = z.
Proof. intros Hz. unfold Int32.wrap. rewrite Z.mod_small by lia. lia. Qed.

Lemma land_31 x : Z.land x 31 = x mod 32.
Proof. change 31 with (Z.ones 5). rewrite Z.land_ones by lia. reflexivity. Qed.

(** On numbers that share no bit, [|] is the sum. *)
Lemma lor_disjoint a b s :
  0 <= s -> 0 <= a < 2 ^ s -> Z.lor a (b * 2 ^ s) = a + b * 2 ^ s.
Proof.
  intros Hs Ha. pose proof (Z.add_lor_land a (b * 2 ^ s)) as Hsum.
  assert (Hland : Z.land a (b * 2 ^ s) = 0).
  { apply Z.bits_inj'. intros n Hn. rewrite Z.land_spec, Z.bits_0.
    destruct (Z.lt_ge_cases n s) as [Hlt | Hge].
    - rewrite Z.mul_pow2_bits_low by exact Hlt. apply andb_false_r.
    - rewrite <- (Z.mod_small a (2 ^ s)) by exact Ha.
      rewrite Z.mod_pow2_bits_high by lia. reflexivity. }
  lia.
Qed.

Lemma pow2_shift_bound s : 0 <= s <= 25 -> 0 < 2 ^ s <= 33554432.
Proof.
  intros Hs. split; [apply Z.pow_pos_nonneg; lia|].
  change 33554432 with (2 ^ 25). apply Z.pow_le_mono_r; lia.
Qed.

(** One chunk added to the value read so far. *)
Lemma chunk_added (byte shift result : Z) :
  0 <= byte < 64 -> 0 <= shift <= 25 -> 0 <= result < 2 ^ shift ->
  Int32.or result (Int32.shl (Int32.and byte 31) shift)
  = result + (byte mod 32) * 2 ^ shift.
Proof.
  intros Hbyte Hshift Hresult. pose proof (pow2_shift_bound shift Hshift) as Hpow.
  pose proof (Z.mod_pos_bound byte 32 ltac:(lia)) as Hmod.
  unfold Int32.or, Int32.shl, Int32.and.
  rewrite (wrap_small byte), (wrap_small 31) by lia.
  rewrite !land_31. rewrite (Z.mod_small shift 32) by lia.
  rewrite (wrap_small (byte mod 32)) by lia.
  rewrite Z.shiftl_mul_pow2 by lia.
  rewrite !(wrap_small (byte mod 32 * 2 ^ shift)) by nia.
  rewrite (wrap_small result) by nia.
  apply lor_disjoint; lia.
Qed.

Lemma charCode_chunkChar chunk : 0 <= chunk < 64 -> charCode (chunkChar chunk) = chunk + 63.
Proof.
  intros Hc. unfold charCode, chunkChar.
  rewrite Ascii.N_ascii_embedding by lia. lia.
Qed.

Lemma append_String c s rest :
  String.append (String c s) rest = String c (String.append s rest).
Proof. reflexivity. Qed.

Lemma append_empty rest : String.append EmptyString rest = rest.
Proof. reflexivity. Qed.

Lemma encodeUnsigned_S chunks u :
  encodeUnsigned (S chunks) u
  = if u <? 32 then String (chunkChar u) EmptyString
    else String (chunkChar (Z.lor 32 (Z.land u 31)))
                (encodeUnsigned chunks (Z.shiftr u 5)).
Proof. reflexivity. Qed.

(** Reading back the chunks of a value gives the value. *)
Lemma readChunks_encodeUnsigned m : forall u shift result rest,
  0 <= u < 2 ^ (5 * Z.of_nat (S m)) ->
  0 <= shift -> shift + 5 * Z.of_nat (S m) <= 30 ->
  0 <= result < 2 ^ shift ->
  readChunks (String.append (encodeUnsigned (S m) u) rest) shift result
  = (result + u * 2 ^ shift, rest).
Proof.
  induction m as [|m IH]; intros u shift result rest Hu Hshift Hroom Hresult.
  - change (2 ^ (5 * Z.of_nat 1)) with 32 in Hu.
    cbn [encodeUnsigned]. destruct (Z.ltb_spec u 32) as [_ | ?]; [|lia].
    rewrite ?append_String, ?append_empty. cbn [readChunks]. rewrite charCode_chunkChar by lia.
    replace (u + 63 - 63) with u by lia.
    destruct (Z.leb_spec 32 u) as [? | _]; [lia|].
    rewrite chunk_added by lia. rewrite Z.mod_small by lia. reflexivity.
  - rewrite (encodeUnsigned_S (S m)). destruct (Z.ltb_spec u 32) as [Hsmall | Hbig].
    + rewrite ?append_String, ?append_empty. cbn [readChunks]. rewrite charCode_chunkChar by lia.
      replace (u + 63 - 63) with u by lia.
      destruct (Z.leb_spec 32 u) as [? | _]; [lia|].
      rewrite chunk_added by lia. rewrite Z.mod_small by lia. reflexivity.
    + pose proof (Z.mod_pos_bound u 32 ltac:(lia)) as Hmod.
      assert (Hchunk : Z.lor 32 (Z.land u 31) = 32 + u mod 32).
      { rewrite land_31, Z.lor_comm.
        pose proof (lor_disjoint (u mod 32) 1 5 ltac:(lia)) as Hlor.
        change (2 ^ 5) with 32 in Hlor. change (1 * 32) with 32 in Hlor.
        rewrite Hlor by exact Hmod. lia. }
      rewrite Hchunk. rewrite ?append_String, ?append_empty. cbn [readChunks].
      rewrite charCode_chunkChar by lia.
      replace (32 + u mod 32 + 63 - 63) with (32 + u mod 32) by lia.
      destruct (Z.leb_spec 32 (32 + u mod 32)) as [_ | ?]; [|lia].
      rewrite chunk_added by lia.
      replace ((32 + u mod 32) mod 32) with (u mod 32)
        by (rewrite <- Zplus_mod_idemp_l; change (32 mod 32) with 0;
            rewrite Z.add_0_l, Z.mod_mod by lia; reflexivity).
      pose proof (pow2_shift_bound shift ltac:(lia)) as Hpow.
      assert (Hnext : 2 ^ (shift + 5) = 2 ^ shift * 32).
      { rewrite Z.pow_add_r by lia. reflexivity. }
      assert (Hup : 2 ^ (5 * Z.of_nat (S (S m))) = 32 * 2 ^ (5 * Z.of_nat (S m))).
      { replace (5 * Z.of_nat (S (S m))) with (5 + 5 * Z.of_nat (S m)) by lia.
        rewrite Z.pow_add_r by lia. reflexivity. }
      rewrite Z.shiftr_div_pow2 by lia. change (2 ^ 5) with 32.
      rewrite IH.
      * f_equal. rewrite Hnext. pose proof (Z.div_mod u 32 ltac:(lia)). nia.
      * split; [apply Z.div_pos; lia|].
        apply Z.div_lt_upper_bound; lia.
      * lia.
      * lia.
      * rewrite Hnext. nia.
Qed.

Lemma zigzag_value v : zigzag v = if v <? 0 then - (2 * v) - 1 else 2 * v.
Proof.
  unfold zigzag. rewrite Z.shiftl_mul_pow2 by lia. change (2 ^ 1) with 2.
  destruct (v <? 0); [rewrite Z.lnot_eq_pred_opp|]; lia.
Qed.

Lemma zigzag_range v : - 2 ^ 29 <= v < 2 ^ 29 -> 0 <= zigzag v < 2 ^ 30.
Proof. intros Hv. rewrite zigzag_value. destruct (Z.ltb_spec v 0); lia. Qed.

(** Unfolding the sign gives the value back. *)
Lemma signedDelta_zigzag v : - 2 ^ 29 <= v < 2 ^ 29 -> signedDelta (zigzag v) = v.
Proof.
  intros Hv. pose proof (zigzag_range v Hv) as Hu.
  unfold signedDelta, Int32.and, Int32.sar, Int32.not.
  rewrite (wrap_small (zigzag v)), (wrap_small 1) by lia.
  change (Z.land 1 31) with 1.
  change (Z.land (zigzag v) 1) with (Z.land (zigzag v) (Z.ones 1)).
  rewrite Z.land_ones by lia. change (2 ^ 1) with 2.
  rewrite Z.shiftr_div_pow2 by lia. change (2 ^ 1) with 2.
  rewrite zigzag_value in *.
  destruct (Z.ltb_spec v 0) as [Hneg | Hpos].
  - replace (- (2 * v) - 1) with (1 + (- v - 1) * 2) by lia.
    rewrite Z.mod_add, Z.div_add by lia. change (1 mod 2) with 1. change (1 / 2) with 0.
    rewrite bool_decide_eq_false_2 by lia.
    rewrite wrap_small by lia. rewrite Z.lnot_eq_pred_opp. lia.
  - replace (2 * v) with (v * 2) by lia. rewrite Z.mod_mul, Z.div_mul by lia.
    rewrite bool_decide_eq_true_2 by reflexivity. reflexivity.
Qed.

Lemma readChunks_encodeValue v rest :
  - 2 ^ 29 <= v < 2 ^ 29 ->
  readChunks (String.append (encodeValue v) rest) 0 0 = (zigzag v, rest).
Proof.
  intros Hv. pose proof (zigzag_range v Hv) as Hu. unfold encodeValue.
  rewrite readChunks_encodeUnsigned.
  - f_equal. change (2 ^ 0) with 1. lia.
  - change (2 ^ (5 * Z.of_nat 6)) with (2 ^ 30). exact Hu.
  - lia.
  - lia.
  - change (2 ^ 0) with 1. lia.
Qed.


Lemma encodeValue_nonempty v : exists c s, encodeValue v = String c s.
Proof.
  unfold encodeValue. rewrite encodeUnsigned_S. destruct (_ <? 32); eauto.
Qed.

(** A read takes at least one character off a string that has one. *)
Lemma readChunks_length encoded : forall shift result,
  (String.length (readChunks encoded shift result).2 <= String.length encoded - 1)%nat.
Proof.
  induction encoded as [|c rest IH]; intros shift result; cbn [readChunks].
  - simpl. lia.
  - cbv zeta. destruct (32 <=? charCode c - 63).
    + specialize (IH (shift + 5) (Int32.or result
                        (Int32.shl (Int32.and (charCode c - 63) 31) shift))).
      simpl String.length. lia.
    + simpl. lia.
Qed.

(** One turn of the outer loop on a string that is not empty. *)
Lemma decodeLoop_turn fuel c rest lat lng :
  decodeLoop (S fuel) (String c rest) lat lng
  = let '(result, encoded) := readChunks (String c rest) 0 0 in
    let lat := lat + signedDelta result in
    let '(result, encoded) := readChunks encoded 0 0 in
    let lng := lng + signedDelta result in
    (IZR lat / 1000000, IZR lng / 1000000)%R :: decodeLoop fuel encoded lat lng.
Proof. reflexivity. Qed.

Lemma decodeLoop_empty fuel lat lng : decodeLoop fuel EmptyString lat lng = [].
Proof. destruct fuel; reflexivity. Qed.

(** Turns beyond the length of the string change nothing. *)
Lemma decodeLoop_fuel n : forall fuel fuel' encoded lat lng,
  (String.length encoded <= n)%nat -> (n <= fuel)%nat -> (n <= fuel')%nat ->
  decodeLoop fuel encoded lat lng = decodeLoop fuel' encoded lat lng.
Proof.
  induction n as [|n IH]; intros fuel fuel' encoded lat lng Hlen Hfuel Hfuel'.
  - destruct encoded; [|simpl in Hlen; lia]. rewrite !decodeLoop_empty. reflexivity.
  - destruct encoded as [|c rest]; [rewrite !decodeLoop_empty; reflexivity|].
    destruct fuel as [|fuel]; [lia|]. destruct fuel' as [|fuel']; [lia|].
    rewrite !decodeLoop_turn.
    pose proof (readChunks_length (String c rest) 0 0) as Hfirst.
    destruct (readChunks (String c rest) 0 0) as [result1 encoded1].
    pose proof (readChunks_length encoded1 0 0) as Hsecond.
    destruct (readChunks encoded1 0 0) as [result2 encoded2].
    simpl in *. f_equal. apply IH; lia.
Qed.

(** Every turn but the last takes at least two characters. *)
Lemma decodeLoop_count fuel : forall encoded lat lng,
  (2 * length (decodeLoop fuel encoded lat lng) <= String.length encoded + 1)%nat.
Proof.
  induction fuel as [|fuel IH]; intros encoded lat lng; [simpl; lia|].
  destruct encoded as [|c rest]; [simpl; lia|].
  rewrite decodeLoop_turn.
  pose proof (readChunks_length (String c rest) 0 0) as Hfirst.
  destruct (readChunks (String c rest) 0 0) as [result1 encoded1].
  pose proof (readChunks_length encoded1 0 0) as Hsecond.
  destruct (readChunks encoded1 0 0) as [result2 encoded2].
  specialize (IH encoded2 (lat + signedDelta result1) (lng + signedDelta result2)).
  simpl in *. lia.
Qed.

Lemma append_assoc s1 s2 s3 :
  String.append (String.append s1 s2) s3 = String.append s1 (String.append s2 s3).
Proof.
  induction s1 as [|c s1 IH]; [reflexivity|]. rewrite !append_String, IH. reflexivity.
Qed.

(** Decoding what was encoded, from any point on and with anything after
    it: the points come out, and the loop goes on from the last of them. *)
Lemma decodeLoop_encodePoints points : forall fuel lat lng rest,
  onEarth (lat, lng) -> Forall onEarth points ->
  decodeLoop (length points + fuel) (String.append (encodePoints lat lng points) rest)
    lat lng
  = (degrees <$> points)
    ++ decodeLoop fuel rest (default (lat, lng) (last points)).1
         (default (lat, lng) (last points)).2.
Proof.
  induction points as [|[lat' lng'] points IH]; intros fuel lat lng rest Hstart Hpoints.
  - reflexivity.
  - apply Forall_cons in Hpoints as [Hpoint Hrest].
    destruct Hstart as [Hlat Hlng]. pose proof Hpoint as [Hlat' Hlng'].
    simpl in Hlat, Hlng, Hlat', Hlng'.
    cbn [encodePoints length Nat.add]. rewrite !append_assoc.
    destruct (encodeValue_nonempty (lat' - lat)) as (c & s & Hfirst).
    rewrite Hfirst, append_String, decodeLoop_turn.
    rewrite <- append_String, <- Hfirst.
    rewrite readChunks_encodeValue by lia.
    rewrite readChunks_encodeValue by lia.
    rewrite !signedDelta_zigzag by lia.
    replace (lat + (lat' - lat)) with lat' by lia.
    replace (lng + (lng' - lng)) with lng' by lia.
    cbv zeta. rewrite fmap_cons, (IH fuel lat' lng' rest Hpoint Hrest).
    rewrite last_cons. destruct (last points); reflexivity.
Qed.

Lemma length_append s1 s2 :
  String.length (String.append s1 s2) = (String.length s1 + String.length s2)%nat.
Proof. induction s1 as [|c s1 IH]; [reflexivity|]. rewrite append_String. simpl. lia. Qed.

Lemma encodePoints_length points : forall lat lng,
  (length points <= String.length (encodePoints lat lng points))%nat.
Proof.
  induction points as [|[lat' lng'] rest IH]; intros lat lng; [simpl; lia|].
  cbn [encodePoints]. rewrite !length_append. specialize (IH lat' lng').
  destruct (encodeValue_nonempty (lat' - lat)) as (c & s & ->). simpl. lia.
Qed.

End Polyline.

(** X18. The decoder stops on every string: turns of its loop beyond the
    length of the string change nothing.  It makes at most one point for
    every two characters, rounded up, and no point only for the empty
    string. *)
Theorem decodePolyline6_turns (encoded : string) :
  (forall fuel, (String.length encoded <= fuel)%nat ->
     decodeLoop fuel encoded 0 0 = decodePolyline6 encoded)
  /\ (2 * length (decodePolyline6 encoded) <= String.length encoded + 1)%nat
  /\ (decodePolyline6 encoded = [] <-> encoded = EmptyString).
Proof.
  split; [|split].
  - intros fuel Hfuel. unfold decodePolyline6.
    apply (decodeLoop_fuel (String.length encoded)); lia.
  - apply decodeLoop_count.
  - unfold decodePolyline6. destruct encoded as [|c rest]; [split; reflexivity|].
    simpl String.length. rewrite decodeLoop_turn.
    destruct (readChunks (String c rest) 0 0) as [result1 encoded1].
    destruct (readChunks encoded1 0 0) as [result2 encoded2].
    split; discriminate.
Qed.

Lemma decodePolyline6_turns_witness :
  decodeLoop 1000 Example.shapeEncoded 0 0 = decodePolyline6 Example.shapeEncoded.
Proof.
  apply (decodePolyline6_turns Example.shapeEncoded). simpl. lia.
Defined.

Lemma decodePolyline6_encoded points rest :
  Forall onEarth points ->
  decodePolyline6 (String.append (encodePolyline6 points) rest)
  = (degrees <$> points)
    ++ decodeLoop (String.length rest) rest (default (0, 0)%Z (last points)).1
         (default (0, 0)%Z (last points)).2.
Proof.
  intros Hpoints. unfold decodePolyline6, encodePolyline6.
  pose proof (encodePoints_length points 0 0) as Hlen.
  rewrite length_append.
  replace (String.length (encodePoints 0 0 points) + String.length rest)%nat
    with (length points
          + (String.length (encodePoints 0 0 points) - length points
             + String.length rest))%nat by lia.
  rewrite decodeLoop_encodePoints; [|split; simpl; lia|exact Hpoints].
  f_equal. apply (decodeLoop_fuel (String.length rest)); lia.
Qed.

Lemma append_empty_r s : String.append s EmptyString = s.
Proof. induction s as [|c s IH]; [reflexivity|]. rewrite append_String, IH. reflexivity. Qed.

(** X19. Decoding inverts the polyline encoding: the points of a route
    that lie in the range of latitudes and longitudes, encoded in
    millionths of a degree, are decoded to the same points in degrees. *)
Theorem decodePolyline6_roundtrip (points : list (Z * Z)) :
  Forall onEarth points ->
  decodePolyline6 (encodePolyline6 points) = degrees <$> points.
Proof.
  intros Hpoints.
  rewrite <- (append_empty_r (encodePolyline6 points)).
  rewrite (decodePolyline6_encoded points EmptyString Hpoints).
  rewrite decodeLoop_empty. apply app_nil_r.
Qed.

Lemma shape_onEarth : Forall onEarth Example.shape.
Proof. repeat constructor; simpl; lia. Qed.

Lemma decodePolyline6_roundtrip_witness :
  decodePolyline6 (encodePolyline6 Example.shape) = degrees <$> Example.shape.
Proof. apply (decodePolyline6_roundtrip Example.shape). apply shape_onEarth. Defined.

(** The encoder gives the string of the format's documentation, and the
    decoder reads the points back from it. *)
Example decodePolyline6_documented :
  encodePolyline6 Example.shape = Example.shapeEncoded
  /\ decodePolyline6 Example.shapeEncoded = degrees <$> Example.shape.
Proof.
  assert (Hencoded : encodePolyline6 Example.shape = Example.shapeEncoded)
    by (vm_compute; reflexivity).
  split; [exact Hencoded|].
  rewrite <- Hencoded.
  rewrite <- (append_empty_r (encodePolyline6 Example.shape)).
  rewrite (decodePolyline6_encoded Example.shape EmptyString shape_onEarth).
  rewrite decodeLoop_empty. apply app_nil_r.
Qed.

(** X20. A string that stops after a latitude is not refused: the
    decoder makes the point with that latitude and the longitude of the
    point before, (0, 0) standing for the point before the first. *)
Theorem decodePolyline6_truncated (points : list (Z * Z)) (lat : Z) :
  Forall onEarth points -> (- 90000000 <= lat <= 90000000)%Z ->
  let previous := default (0, 0)%Z (last points) in
  decodePolyline6
    (String.append (encodePolyline6 points) (encodeValue (lat - previous.1)))
  = degrees <$> (points ++ [(lat, previous.2)]).
Proof.
  intros Hpoints Hlat previous.
  rewrite (decodePolyline6_encoded points _ Hpoints). fold previous.
  rewrite fmap_app. f_equal.
  assert (Hprevious : onEarth previous).
  { unfold previous. destruct (last points) as [p|] eqn:Hlast; simpl.
    - eapply Forall_forall; [exact Hpoints|]. apply last_Some_elem_of, Hlast.
    - split; simpl; lia. }
  destruct Hprevious as [Hplat Hplng].
  destruct (encodeValue_nonempty (lat - previous.1)) as (c & s & Hfirst).
  rewrite Hfirst. simpl String.length. rewrite decodeLoop_turn.
  rewrite <- Hfirst, <- (append_empty_r (encodeValue (lat - previous.1))).
  rewrite readChunks_encodeValue by lia.
  rewrite signedDelta_zigzag by lia.
  cbn [readChunks]. rewrite decodeLoop_empty.
  change (signedDelta (Int32.or 0 (Int32.shl (Int32.and 0 31) 0))) with 0%Z.
  replace (previous.1 + (lat - previous.1))%Z with lat by lia.
  rewrite Z.add_0_r. reflexivity.
Qed.

Lemma decodePolyline6_truncated_witness :
  decodePolyline6
    (String.append (encodePolyline6 Example.shape) (encodeValue (4400000 - 4325200)))
  = degrees <$> (Example.shape ++ [(4400000, -12645300)%Z]).
Proof.
  apply (decodePolyline6_truncated Example.shape 4400000); [apply shape_onEarth | lia].
Defined.

(** * More on the cost model and the selector *)

Lemma total_Permutation l1 l2 : l1 ≡ₚ l2 -> total l1 = total l2.
Proof.
  unfold total. induction 1 as [|x l1 l2 _ IH|x y l|l1 l2 l3 _ IH1 _ IH2]; simpl; lra.
Qed.

(** When no id occurs twice, the incidents charged are those near the
    route whose id was not met before the evaluation. *)
Lemma penalized_NoDup routeCoordinates incidents : forall met : gset string,
  NoDup (Incident.id <$> incidents) ->
  penalized routeCoordinates met incidents
  = filter (fun incident =>
              withinRadius routeCoordinates incident 600 /\ Incident.id incident ∉ met)
           incidents.
Proof.
  induction incidents as [|incident rest IH]; intros met Hnodup; [reflexivity|].
  rewrite fmap_cons in Hnodup. apply NoDup_cons in Hnodup as [Hnew Hnodup].
  cbn [penalized]. rewrite filter_cons. case_decide as Hcase.
  - f_equal. rewrite penalized_fresh by exact Hnew. apply IH, Hnodup.
  - apply IH, Hnodup.
Qed.

Lemma penalty_le routeCoordinates incident : penalty routeCoordinates incident <= 500000.
Proof.
  unfold penalty, weight. repeat case_match; simpl; try lra.
  destruct (Incident.credibility incident); simpl; lra.
Qed.

Lemma total_le_length (l : list R) (bound : R) :
  0 <= bound -> Forall (fun x => x <= bound) l -> total l <= bound * INR (length l).
Proof.
  intros Hbound. unfold total. induction 1 as [|x l Hx _ IH].
  - simpl. lra.
  - cbn [foldr length]. rewrite S_INR. lra.
Qed.

(** X21. The order of the incidents does not matter when no two of them
    bear the same id. *)
Theorem calculateRouteCost_permutation routeCoordinates distance duration incidents incidents' :
  NoDup (Incident.id <$> incidents) ->
  incidents ≡ₚ incidents' ->
  calculateRouteCost routeCoordinates distance duration incidents
  = calculateRouteCost routeCoordinates distance duration incidents'.
Proof.
  intros Hnodup Hperm.
  assert (Hnodup' : NoDup (Incident.id <$> incidents')) by (rewrite <- Hperm; exact Hnodup).
  rewrite !calculateRouteCost_penalized, !penalized_NoDup by assumption.
  f_equal. apply total_Permutation. rewrite Hperm. reflexivity.
Qed.

Lemma calculateRouteCost_permutation_witness :
  calculateRouteCost Example.route 1000 120 [Example.pothole; Example.fire; Example.protest]
  = calculateRouteCost Example.route 1000 120 [Example.protest; Example.fire; Example.pothole].
Proof.
  apply (calculateRouteCost_permutation Example.route 1000 120
           [Example.pothole; Example.fire; Example.protest]
           [Example.protest; Example.fire; Example.pothole]).
  - simpl. repeat constructor; set_solver.
  - etransitivity; [apply Permutation_swap|].
    etransitivity; [apply Permutation_skip, Permutation_swap|].
    apply Permutation_swap.
Defined.

(** X22. An incident adds at most 500,000: the cost is at most the
    distance plus the duration plus 500,000 for every incident. *)
Theorem calculateRouteCost_upper_bound routeCoordinates distance duration incidents :
  calculateRouteCost routeCoordinates distance duration incidents
  <= distance + duration + 500000 * INR (length incidents).
Proof.
  rewrite calculateRouteCost_penalized.
  pose proof (total_le_length
                (penalty routeCoordinates <$> penalized routeCoordinates ∅ incidents)
                500000 ltac:(lra)) as Hle.
  rewrite length_fmap in Hle.
  assert (Hlen : INR (length (penalized routeCoordinates ∅ incidents))
                 <= INR (length incidents)).
  { apply le_INR, sublist_length, penalized_sublist. }
  assert (total (penalty routeCoordinates <$> penalized routeCoordinates ∅ incidents)
          <= 500000 * INR (length (penalized routeCoordinates ∅ incidents))).
  { apply Hle, Forall_fmap, Forall_forall. intros incident _. apply penalty_le. }
  nra.
Qed.

(** X23. On a route without points no incident is near: the cost is the
    distance plus the duration, whatever the incidents. *)
Theorem calculateRouteCost_no_points distance duration incidents :
  calculateRouteCost [] distance duration incidents = distance + duration.
Proof.
  unfold calculateRouteCost.
  assert (Hloop : forall locals, foldl (costLoop []) locals incidents = locals).
  { induction incidents as [|incident rest IH]; intros locals; cbn [foldl];
      [reflexivity|].
    rewrite costLoop_far; [apply IH|].
    intros (p & Hp & _). apply elem_of_nil in Hp. exact Hp. }
  rewrite Hloop. reflexivity.
Qed.



(** X25. When Valhalla answers with a route, [getRoute] gives that route
    and sends nothing to OSRM. *)
Theorem getRoute_primary start end_ mode incidents net directRoute :
  valhalla net start end_ mode = Some directRoute ->
  run (getRoute start end_ mode incidents) net
  = (Some directRoute, [ValhallaRequest start end_ mode]).
Proof. intros Hvalhalla. rewrite run_getRoute, Hvalhalla. reflexivity. Qed.

Lemma getRoute_primary_witness :
  run (getRoute Example.here Example.there cycling None) Example.allUp
  = (Some Example.answer, [ValhallaRequest Example.here Example.there cycling]).
Proof.
  apply (getRoute_primary Example.here Example.there cycling None Example.allUp).
  reflexivity.
Defined.
